(** * pokedexcli: the time-bounded response cache and the catch rule

    A shallow embedding of [internal/pokecache/cache.go] and of the catch
    decision of [main.go], with the properties the specification states
    about them.

    - Go's [int], [time.Duration] and the monotonic clock reading carried by
      a [time.Time] are 64-bit signed integers; they are modelled as [Z]
      with the wrap-around written out ([wrap64]).
    - [map[string]cacheEntry] is a [gmap string cacheEntry].
    - The methods of [*Cache] mutate the receiver and take its mutex; they
      are written in a small monad that threads the cache, reads the clock
      and records whether a call returned, blocked on the mutex or died.
    - The other commands of [main.go] and the body of its input loop work on
      a state of config, cache, pokedex and standard output; the network and
      [encoding/json] are parameters ([externals]). *)

From Stdlib Require Import ZArith Lia.
From stdpp Require Import gmap strings list fin_maps pretty.

Local Open Scope Z_scope.

(** ** Machine integers *)

Definition min_int64 : Z := - 2 ^ 63.
Definition max_int64 : Z := 2 ^ 63 - 1.

(** Two's complement reduction of an exact result to 64 bits. *)
Definition wrap64 (z : Z) : Z := (z + 2 ^ 63) mod 2 ^ 64 - 2 ^ 63.

Definition int64_range (z : Z) : Prop := min_int64 <= z <= max_int64.

Definition int_sub (a b : Z) : Z := wrap64 (a - b).

(** ** Package [time], as far as the cache uses it *)

Module time.

(** A [time.Time] obtained from [time.Now] carries a monotonic clock
    reading, nanoseconds since process start; [time.Since] uses only that
    reading. *)
Definition Time : Type := Z.

(** Nanoseconds. *)
Definition Duration : Type := Z.

Definition minDuration : Duration := min_int64.
Definition maxDuration : Duration := max_int64.

(** The zero [time.Time]. *)
Definition zeroTime : Time := 0.

(** [subMono t u]: the difference of two monotonic readings, saturating
    where the 64-bit subtraction overflows. *)
Definition subMono (t u : Z) : Duration :=
  let d := wrap64 (t - u) in
  if (d <? 0) && (u <? t) then maxDuration
  else if (0 <? d) && (t <? u) then minDuration
  else d.

(** [time.Since(t)] when the clock reads [now]. *)
Definition Since (now t : Time) : Duration := subMono now t.

(** The readings the monotonic clock can produce. *)
Definition reading (t : Time) : Prop := 0 <= t <= max_int64.

End time.

(** ** Package [pokecache] *)

Module pokecache.

(** [[]byte]: [None] is the nil slice, [Some l] a slice with contents [l]. *)
Definition bytes : Type := option (list Byte.byte).

Definition nil_bytes : bytes := None.

Record cacheEntry : Type := mkEntry {
  createdAt : time.Time;
  val : bytes
}.

(** The zero value of the struct, what indexing a map gives for a key it
    does not hold. *)
Definition zeroEntry : cacheEntry :=
  {| createdAt := time.zeroTime; val := nil_bytes |}.

Record Cache : Type := mkCache {
  mu : bool;                          (* [true]: the mutex is held *)
  entries : gmap string cacheEntry;
  interval : time.Duration
}.

Definition with_mu (b : bool) (c : Cache) : Cache :=
  {| mu := b; entries := entries c; interval := interval c |}.

Definition with_entries (m : gmap string cacheEntry) (c : Cache) : Cache :=
  {| mu := mu c; entries := m; interval := interval c |}.

(** *** The monad of cache methods

    A method runs at a clock reading [now] on a cache [c]. It returns a
    value and the cache it leaves, or it blocks on the held mutex, or the
    runtime stops the program (unlock of an unlocked mutex). *)

Inductive outcome (A : Type) : Type :=
| Returned (a : A) (c : Cache)
| Blocked
| Fatal.

Arguments Returned {A} a c.
Arguments Blocked {A}.
Arguments Fatal {A}.

Definition M (A : Type) : Type := time.Time -> Cache -> outcome A.

Definition ret {A} (a : A) : M A := fun _ c => Returned a c.

Definition bind {A B} (x : M A) (k : A -> M B) : M B :=
  fun now c =>
    match x now c with
    | Returned a c' => k a now c'
    | Blocked => Blocked
    | Fatal => Fatal
    end.

Global Instance cache_ret : MRet M := @ret.
Global Instance cache_bind : MBind M := fun A B k x => bind x k.

(** [c.mu.Lock()] *)
Definition Lock : M unit :=
  fun _ c => if mu c then Blocked else Returned tt (with_mu true c).

(** [c.mu.Unlock()] *)
Definition Unlock : M unit :=
  fun _ c => if mu c then Returned tt (with_mu false c) else Fatal.

(** [defer d] at the head of a body: [d] runs when the body returns. *)
Definition defer {A} (d : M unit) (body : M A) : M A :=
  a ← body; d;; mret a.

(** [time.Now()] *)
Definition Now : M time.Time := fun now c => Returned now c.

(** [c.interval] *)
Definition get_interval : M time.Duration :=
  fun _ c => Returned (interval c) c.

(** [c.entries] as it stands, for [range]. *)
Definition get_entries : M (gmap string cacheEntry) :=
  fun _ c => Returned (entries c) c.

(** [entry, found := c.entries[key]] *)
Definition index (key : string) : M (cacheEntry * bool) :=
  fun _ c =>
    match entries c !! key with
    | Some e => Returned (e, true) c
    | None => Returned (zeroEntry, false) c
    end.

(** [c.entries[key] = e] *)
Definition assign (key : string) (e : cacheEntry) : M unit :=
  fun _ c => Returned tt (with_entries (<[key := e]> (entries c)) c).

(** [delete(c.entries, key)] *)
Definition delete_key (key : string) : M unit :=
  fun _ c => Returned tt (with_entries (delete key (entries c)) c).

(** [time.Since(t)] *)
Definition Since (t : time.Time) : M time.Duration :=
  now ← Now; mret (time.Since now t).

(** Run a body for each pair of a list, in order. *)
Fixpoint for_each (l : list (string * cacheEntry))
    (body : string -> cacheEntry -> M unit) : M unit :=
  match l with
  | [] => mret tt
  | (key, entry) :: l' => body key entry ;; for_each l' body
  end.

(** [for key, entry := range c.entries { body }]. The pairs are those the
    map holds when the loop starts; the bodies below delete no key but the
    one being visited, so each of them is visited once. *)
Definition range_entries (body : string -> cacheEntry -> M unit) : M unit :=
  m ← get_entries; for_each (map_to_list m) body.

(** *** The methods *)

(** [NewCache(interval)]: the value the constructor returns. The sweeper
    it starts is [reapLoop] below. *)
Definition NewCache (interval : time.Duration) : Cache :=
  {| mu := false; entries := ∅; interval := interval |}.

Definition Add (key : string) (val : bytes) : M unit :=
  Lock ;;
  defer Unlock (
    now ← Now;
    assign key {| createdAt := now; val := val |}).

Definition Get (key : string) : M (bytes * bool) :=
  Lock ;;
  defer Unlock (
    r ← index key;
    let '(entry, found) := r in
    if negb found then mret (nil_bytes, false)
    else mret (val entry, true)).

(** The body of the [range] loop of [reapLoop]. *)
Definition reapEntry (key : string) (entry : cacheEntry) : M unit :=
  age ← Since (createdAt entry);
  limit ← get_interval;
  if bool_decide (age > limit) then delete_key key else mret tt.

(** One turn of the [for] loop of [reapLoop], after the ticker fired. The
    whole pass is taken at one clock reading: the one the monad carries. *)
Definition reapPass : M unit :=
  Lock ;;
  range_entries reapEntry ;;
  Unlock.

(** [time.NewTicker(d)] panics on a non-positive [d]. *)
Definition NewTicker (d : time.Duration) : M unit :=
  fun _ c => if bool_decide (d <= 0) then Fatal else Returned tt c.

(** The [for] loop of [reapLoop] over a finite prefix of the ticker's
    channel: each tick is the clock reading at which its pass runs. The
    loop itself has no exit. *)
Fixpoint reapTicks (ticks : list time.Time) (c : Cache) : outcome unit :=
  match ticks with
  | [] => Returned tt c
  | now :: ticks' =>
      match reapPass now c with
      | Returned _ c' => reapTicks ticks' c'
      | Blocked => Blocked
      | Fatal => Fatal
      end
  end.

Definition reapLoop (start : time.Time) (ticks : list time.Time)
    (c : Cache) : outcome unit :=
  match (d ← get_interval; NewTicker d) start c with
  | Returned _ c' => reapTicks ticks c'
  | Blocked => Blocked
  | Fatal => Fatal
  end.

(** [expired now limit e]: the test of the sweep,
    [time.Since(e.createdAt) > limit], at the clock reading [now]. *)
Definition expired (now : time.Time) (limit : time.Duration)
    (e : cacheEntry) : bool :=
  bool_decide (time.Since now (createdAt e) > limit).

(** Every [createdAt] in the map is a reading of the monotonic clock, as it
    is when [Add] is the only writer. *)
Definition stamped (c : Cache) : Prop :=
  forall k e, entries c !! k = Some e -> time.reading (createdAt e).

(** *** Histories

    The mutex orders the critical sections of the callers and of the
    sweeper. A history lists them in that order, each with the clock
    reading at which it ran. *)

Inductive call : Type :=
| CallAdd (key : string) (val : bytes)
| CallGet (key : string)
| CallReap.

Definition perform (cl : call) : M unit :=
  match cl with
  | CallAdd key val => Add key val
  | CallGet key => Get key ;; mret tt
  | CallReap => reapPass
  end.

Fixpoint run (h : list (time.Time * call)) (c : Cache) : outcome unit :=
  match h with
  | [] => Returned tt c
  | (now, cl) :: h' =>
      match perform cl now c with
      | Returned _ c' => run h' c'
      | Blocked => Blocked
      | Fatal => Fatal
      end
  end.

(** *** Sample data for the checks below *)

Definition sample_payload : bytes :=
  Some [Byte.x70; Byte.x69; Byte.x6b; Byte.x61].

(** One entry, added when the clock read 7, retention 100. *)
Definition stale_cache : Cache :=
  {| mu := false;
     entries := {[ "u" := mkEntry 7 sample_payload ]};
     interval := 100 |}.

(** Two entries, added at 10 and at 150, retention 100. *)
Definition sweep_cache : Cache :=
  {| mu := false;
     entries := <["old" := mkEntry 10 nil_bytes]>
                  (<["new" := mkEntry 150 sample_payload]> ∅);
     interval := 100 |}.

End pokecache.

(** ** Package [main]: the catch command *)

Module main.

Record NamedAPIResource : Type := mkResource {
  res_Name : string;
  res_URL : string
}.

Record StatInfo : Type := mkStatInfo { stat_Name : string }.

Record Stat : Type := mkStat {
  stat_Stat : StatInfo;
  BaseStat : Z
}.

Record TypeInfo : Type := mkTypeInfo { type_Type : NamedAPIResource }.

Record PokemonDetail : Type := mkPokemon {
  Name : string;
  BaseExperience : Z;                  (* Go [int], 64 bits *)
  Height : Z;
  Weight : Z;
  Stats : list Stat;
  Types : list TypeInfo
}.

(** What [http.Get] and the JSON decoder hand to the command. *)
Inductive response : Type :=
| GetFailed (err : string)
| NotOK (status : string)
| DecodeFailed (err : string)
| Decoded (pokemonDetail : PokemonDetail).

(** The global the command writes and the lines it prints. *)
Record world : Type := mkWorld {
  userPokedex : gmap string PokemonDetail;
  stdout : list string
}.

Definition Println (line : string) (w : world) : world :=
  {| userPokedex := userPokedex w; stdout := stdout w ++ [line] |}.

Definition store (d : PokemonDetail) (w : world) : world :=
  {| userPokedex := <[Name d := d]> (userPokedex w); stdout := stdout w |}.

(** [commandCatch] after the request: [randomValue] is what
    [rng.Intn(100)] returned. The result is the error returned, if any,
    and the world the command leaves. *)
Definition commandCatch (resp : response) (randomValue : Z) (w : world)
    : option string * world :=
  match resp with
  | GetFailed err => (Some err, w)
  | NotOK status => (Some ("error fetching data: " +:+ status), w)
  | DecodeFailed err => (Some err, w)
  | Decoded pokemonDetail =>
      let catchChance := int_sub 100 (BaseExperience pokemonDetail) in
      let w1 :=
        Println ("Throwing a Pokeball at " +:+ Name pokemonDetail +:+ "...") w in
      if randomValue <? catchChance then
        (None, store pokemonDetail
                 (Println (Name pokemonDetail +:+ " was caught!") w1))
      else
        (None, Println (Name pokemonDetail +:+ " escaped!") w1)
  end.

(** The values [rng.Intn(100)] can return. *)
Definition Intn100 (r : Z) : Prop := 0 <= r < 100.

(** What the command leaves when the creature is caught, and when it
    escapes. *)
Definition caught (d : PokemonDetail) (w : world) : world :=
  {| userPokedex := <[Name d := d]> (userPokedex w);
     stdout := stdout w ++ ["Throwing a Pokeball at " +:+ Name d +:+ "...";
                            Name d +:+ " was caught!"] |}.

Definition escaped (d : PokemonDetail) (w : world) : world :=
  {| userPokedex := userPokedex w;
     stdout := stdout w ++ ["Throwing a Pokeball at " +:+ Name d +:+ "...";
                            Name d +:+ " escaped!"] |}.

(** *** Sample data for the checks below *)

Definition creature (name : string) (baseExperience : Z) : PokemonDetail :=
  {| Name := name; BaseExperience := baseExperience; Height := 4; Weight := 60;
     Stats := [mkStat (mkStatInfo "hp") 35];
     Types := [mkTypeInfo (mkResource "electric" "")] |}.

Definition empty_world : world := {| userPokedex := ∅; stdout := [] |}.

End main.

(** ** Package [main]: the other commands and the dispatch *)

Module commands.
Import pokecache main.

Record LocationArea : Type := mkLocation {
  loc_Name : string;
  loc_URL : string
}.

Record Config : Type := mkConfig {
  Next : option string;                (* [*string]: [None] is nil *)
  Previous : option string;
  Locations : list LocationArea
}.

Record EncounterDetail : Type := mkEncounterDetail {
  MinLevel : Z;
  MaxLevel : Z
}.

Record VersionEncounterDetail : Type := mkVersionDetail {
  Version : NamedAPIResource;
  EncounterDetails : list EncounterDetail
}.

Record PokemonEncounter : Type := mkEncounter {
  Pokemon : NamedAPIResource;
  VersionDetails : list VersionEncounterDetail
}.

(** What [http.Get(url)] and [io.ReadAll(response.Body)] give: a transport
    error, a status other than 200, a body, or a failed read of a 200
    response. [io.ReadAll] never returns a nil slice with a nil error. *)
Inductive httpResult : Type :=
| HttpError (err : string)
| HttpStatus (status : string)
| HttpBody (data : list Byte.byte)
| HttpReadError (err : string).

(** What the program takes from outside: the network and package
    [encoding/json]. [unmarshalConfig data config] is
    [json.Unmarshal(data, config)]: the error, if any, and the [Config] the
    pointer holds afterwards. *)
Record externals : Type := mkExternals {
  httpGet : string -> httpResult;
  unmarshalConfig : bytes -> Config -> option string * Config;
  unmarshalEncounters : bytes -> string + list PokemonEncounter;
  fetchPokemon : string -> response
}.

(** What a command works on: [config], the cache [main] created, and the
    global pokedex with the standard output. *)
Record state : Type := mkState {
  config : Config;
  cache : Cache;
  env : world
}.

(** How a command ends: it returns its error value, it exits the process,
    it waits for the cache mutex for ever, or the runtime stops the
    program. *)
Inductive result : Type :=
| Done (err : option string) (s : state)
| Exit (s : state)
| Hang
| Crash.

Definition PrintAll (lines : list string) (w : world) : world :=
  foldl (fun w line => Println line w) w lines.

(** A command that only uses the pokedex and the standard output. *)
Definition on_env (f : world -> option string * world) (s : state) : result :=
  let '(err, w) := f (env s) in
  Done err {| config := config s; cache := cache s; env := w |}.

Definition commandHelp (w : world) : option string * world :=
  (None,
   PrintAll
     ["Welcome to the Pokedex!";
      "Usage:";
      "help: Displays a help message";
      "exit: Exit the Pokedex";
      "map: Displays the next 20 location areas";
      "mapb: Displays the previous 20 location areas";
      "explore <location_name>: Explore a location area and list all Pokémon found there";
      "catch <pokemon_name>: Try to catch a Pokémon and store it in your Pokedex!";
      "inspect <pokemon_name>: Inspect a Pokémon you have caught and stored in your Pokedex!";
      "pokedex: Lists the Pokémon currently stored in your Pokedex"] w).

Definition commandExit (s : state) : result :=
  Exit {| config := config s; cache := cache s;
          env := Println "Exiting the Pokedex..." (env s) |}.

(** The part [commandMap] and [commandMapBack] share word for word, from
    the cache lookup on. The clock reading is the one at which [cache.Add]
    runs; [cache.Get] reads no clock. *)
Definition showPage (E : externals) (url : string) (now : time.Time)
    (s : state) : result :=
  match Get url now (cache s) with
  | Returned (cachedData, found) c1 =>
      if found then
        let w1 := Println "Using cached data." (env s) in
        match unmarshalConfig E cachedData (config s) with
        | (Some err, cfg) =>
            Done (Some err) {| config := cfg; cache := c1; env := w1 |}
        | (None, cfg) =>
            Done None {| config := cfg; cache := c1;
                         env := PrintAll (map loc_Name (Locations cfg)) w1 |}
        end
      else
        match httpGet E url with
        | HttpError err =>
            Done (Some err) {| config := config s; cache := c1; env := env s |}
        | HttpStatus status =>
            Done (Some ("error fetching data: " +:+ status))
                 {| config := config s; cache := c1; env := env s |}
        | HttpReadError err =>
            Done (Some err) {| config := config s; cache := c1; env := env s |}
        | HttpBody data =>
            match Add url (Some data) now c1 with
            | Returned _ c2 =>
                match unmarshalConfig E (Some data) (config s) with
                | (Some err, cfg) =>
                    Done (Some err)
                         {| config := cfg; cache := c2; env := env s |}
                | (None, cfg) =>
                    Done None
                         {| config := cfg; cache := c2;
                            env := PrintAll (map loc_Name (Locations cfg))
                                     (env s) |}
                end
            | Blocked => Hang
            | Fatal => Crash
            end
        end
  | Blocked => Hang
  | Fatal => Crash
  end.

Definition commandMap (E : externals) (now : time.Time) (s : state)
    : result :=
  if (length (Locations (config s)) =? 0)%nat then
    showPage E "https://pokeapi.co/api/v2/location-area/" now s
  else
    match Next (config s) with
    | Some next => showPage E next now s
    | None => Done (Some "no more location areas to display") s
    end.

Definition commandMapBack (E : externals) (now : time.Time) (s : state)
    : result :=
  match Previous (config s) with
  | None => Done (Some "no previous locations available") s
  | Some previous => showPage E previous now s
  end.

Definition printPokemonFromLocation (E : externals) (data : bytes)
    (w : world) : option string * world :=
  match unmarshalEncounters E data with
  | inl err => (Some err, w)
  | inr encounters =>
      (None,
       PrintAll (map (fun encounter => " - " +:+ res_Name (Pokemon encounter))
                     encounters)
                (Println "Found Pokémon:" w))
  end.

Definition commandExplore (E : externals) (locationName : string)
    (now : time.Time) (s : state) : result :=
  let url := "https://pokeapi.co/api/v2/location-area/" +:+ locationName in
  match Get url now (cache s) with
  | Returned (cachedData, found) c1 =>
      if found then
        let '(err, w) :=
          printPokemonFromLocation E cachedData
            (Println "Using cached data." (env s)) in
        Done err {| config := config s; cache := c1; env := w |}
      else
        match httpGet E url with
        | HttpError err =>
            Done (Some err) {| config := config s; cache := c1; env := env s |}
        | HttpStatus status =>
            Done (Some ("error fetching data: " +:+ status))
                 {| config := config s; cache := c1; env := env s |}
        | HttpReadError err =>
            Done (Some err) {| config := config s; cache := c1; env := env s |}
        | HttpBody data =>
            match Add url (Some data) now c1 with
            | Returned _ c2 =>
                let '(err, w) :=
                  printPokemonFromLocation E (Some data) (env s) in
                Done err {| config := config s; cache := c2; env := w |}
            | Blocked => Hang
            | Fatal => Crash
            end
        end
  | Blocked => Hang
  | Fatal => Crash
  end.

(** [commandCatch(pokemonName)] with its request: the URL it builds and
    what comes back for it. *)
Definition commandCatchByName (E : externals) (pokemonName : string)
    (randomValue : Z) (w : world) : option string * world :=
  commandCatch
    (fetchPokemon E ("https://pokeapi.co/api/v2/pokemon/" +:+ pokemonName))
    randomValue w.

Definition commandInspect (pokemonName : string) (w : world)
    : option string * world :=
  match userPokedex w !! pokemonName with
  | None => (None, Println "you have not caught that pokemon" w)
  | Some pokemon =>
      (None,
       PrintAll
         (["Name: " +:+ Name pokemon;
           "Height: " +:+ pretty (Height pokemon);
           "Weight: " +:+ pretty (Weight pokemon);
           "Stats:"]
          ++ map (fun stat => "  -" +:+ stat_Name (stat_Stat stat) +:+ ": "
                                +:+ pretty (BaseStat stat))
                 (Stats pokemon)
          ++ ["Types:"]
          ++ map (fun pokemonType =>
                    "  - " +:+ res_Name (type_Type pokemonType))
                 (Types pokemon)) w)
  end.

(** [range userPokedex] visits the names in an order of Go's choosing; here
    it is the order of [map_to_list]. *)
Definition commandPokedex (w : world) : option string * world :=
  if (size (userPokedex w) =? 0)%nat then
    (None, Println "Your Pokedex is empty." w)
  else
    (None,
     PrintAll (map (fun entry => " - " +:+ entry.1)
                   (map_to_list (userPokedex w)))
              (Println "Your Pokedex:" w)).

(** *** The table of commands and the body of the input loop *)

Record cliCommand : Type := mkCommand {
  name : string;
  description : string;
  callback : list string -> time.Time -> Z -> state -> result
}.

(** The map [commands] of [main]. A callback gets the arguments typed after
    the command name, the clock reading, and the number [rng.Intn(100)]
    gives if asked. *)
Definition commands (E : externals) : gmap string cliCommand :=
  list_to_map
    [("help",
      {| name := "help"; description := "Displays a help message";
         callback := fun _ _ _ => on_env commandHelp |});
     ("exit",
      {| name := "exit"; description := "Exit the Pokedex";
         callback := fun _ _ _ => commandExit |});
     ("map",
      {| name := "map"; description := "Displays the next 20 location areas";
         callback := fun _ now _ => commandMap E now |});
     ("mapb",
      {| name := "mapb";
         description := "Displays the previous 20 location areas";
         callback := fun _ now _ => commandMapBack E now |});
     ("explore",
      {| name := "explore";
         description := "Explore a specific location area and list all Pokémon found there";
         callback := fun args now _ s =>
           match args with
           | [] => Done (Some "please provide a location area name to explore") s
           | locationName :: _ => commandExplore E locationName now s
           end |});
     ("catch",
      {| name := "catch"; description := "Catch a Pokémon by name";
         callback := fun args _ randomValue s =>
           match args with
           | [] => Done (Some "please provide a Pokémon name to catch") s
           | pokemonName :: _ =>
               on_env (commandCatchByName E pokemonName randomValue) s
           end |});
     ("inspect",
      {| name := "inspect"; description := "Inspect a caught Pokémon";
         callback := fun args _ _ s =>
           match args with
           | [] => Done (Some "please provide a Pokémon name to inspect") s
           | pokemonName :: _ => on_env (commandInspect pokemonName) s
           end |});
     ("pokedex",
      {| name := "pokedex"; description := "List all caught Pokémon";
         callback := fun _ _ _ => on_env commandPokedex |})].

Definition say (line : string) (s : state) : state :=
  {| config := config s; cache := cache s; env := Println line (env s) |}.

(** One turn of the input loop of [main], from the fields of the line read
    to the answer, without the prompt that follows. [inputParts] is
    [strings.Fields(input)]. *)
Definition dispatch (E : externals) (inputParts : list string)
    (now : time.Time) (randomValue : Z) (s : state) : result :=
  match inputParts with
  | [] => Done None (say "Unknown command. Type 'help' for a list of commands." s)
  | commandName :: args =>
      match commands E !! commandName with
      | Some cmd =>
          match callback cmd args now randomValue s with
          | Done (Some err) s' => Done None (say ("Error: " +:+ err) s')
          | r => r
          end
      | None =>
          Done None (say "Unknown command. Type 'help' for a list of commands." s)
      end
  end.

(** The state [main] starts its loop in, after the greeting. *)
Definition initial_state : state :=
  {| config := {| Next := None; Previous := None; Locations := [] |};
     cache := NewCache (5 * 60 * 1000000000);
     env := {| userPokedex := ∅; stdout := ["Welcome to the Pokedex!"] |} |}.

(** *** Sample data for the checks below *)

Definition viridian_body : list Byte.byte := [Byte.x7b; Byte.x7d].

Definition viridian_url : string :=
  "https://pokeapi.co/api/v2/location-area/viridian-forest".

(** A network that knows one location and one creature, and a decoder that
    accepts every body that is not empty. *)
Definition sample_externals : externals :=
  {| httpGet := fun url =>
       if bool_decide (url = viridian_url) then HttpBody viridian_body
       else HttpStatus "404 Not Found";
     unmarshalConfig := fun _ cfg => (Some "unexpected end of JSON input", cfg);
     unmarshalEncounters := fun data =>
       match data with
       | Some (_ :: _) => inr [mkEncounter (mkResource "pidgey" "") [];
                               mkEncounter (mkResource "weedle" "") []]
       | _ => inl "unexpected end of JSON input"
       end;
     fetchPokemon := fun url =>
       if bool_decide (url = "https://pokeapi.co/api/v2/pokemon/pidgey")
       then Decoded (creature "pidgey" 50)
       else NotOK "404 Not Found" |}.

(** No network at all. *)
Definition offline : externals :=
  {| httpGet := fun _ => HttpError "dial tcp: network is unreachable";
     unmarshalConfig := unmarshalConfig sample_externals;
     unmarshalEncounters := unmarshalEncounters sample_externals;
     fetchPokemon := fun _ => GetFailed "dial tcp: network is unreachable" |}.

End commands.

(** * Properties *)

(** ** Clock arithmetic *)

Lemma wrap64_small (z : Z) : int64_range z -> wrap64 z = z.
Proof.
  unfold int64_range, min_int64, max_int64, wrap64. intros Hz.
  rewrite Z.mod_small by lia. lia.
Qed.

(** Between two readings of the monotonic clock the 64-bit subtraction is
    exact: [time.Since] is the plain difference. *)
Lemma Since_readings (now t : time.Time) :
  time.reading now -> time.reading t -> time.Since now t = now - t.
Proof.
  unfold time.reading, time.Since, time.subMono, max_int64. intros Hn Ht.
  rewrite wrap64_small by (unfold int64_range, min_int64, max_int64; lia).
  destruct (Z.ltb_spec (now - t) 0), (Z.ltb_spec t now),
    (Z.ltb_spec 0 (now - t)), (Z.ltb_spec now t); simpl; lia.
Qed.

Module pokecache_facts.
Import pokecache.

Ltac unfold_cache :=
  unfold Add, Get, reapPass, reapEntry, range_entries, defer, Since, Lock,
    Unlock, Now, get_interval, get_entries, index, assign, delete_key,
    mbind, mret, cache_bind, cache_ret, bind, ret in *.

Lemma free_cache_eta (c : Cache) :
  mu c = false ->
  {| mu := false; entries := entries c; interval := interval c |} = c.
Proof. destruct c; simpl; intros ->; reflexivity. Qed.

(** *** What a call computes on a cache whose mutex is free *)

Lemma Add_run (c : Cache) (key : string) (v : bytes) (now : time.Time) :
  mu c = false ->
  Add key v now c =
    Returned tt {| mu := false;
                   entries := <[key := mkEntry now v]> (entries c);
                   interval := interval c |}.
Proof. intros Hmu. unfold_cache. rewrite Hmu. reflexivity. Qed.

Lemma Get_run (c : Cache) (key : string) (now : time.Time) :
  mu c = false ->
  Get key now c =
    Returned (match entries c !! key with
              | Some e => (val e, true)
              | None => (nil_bytes, false)
              end) c.
Proof.
  intros Hmu. unfold_cache. rewrite Hmu. simpl.
  destruct (entries c !! key) as [e|]; simpl; unfold with_mu; simpl;
    rewrite (free_cache_eta c Hmu); reflexivity.
Qed.

Lemma reapEntry_run (c : Cache) (key : string) (e : cacheEntry)
    (now : time.Time) :
  reapEntry key e now c =
    Returned tt (if expired now (interval c) e
                 then with_entries (delete key (entries c)) c
                 else c).
Proof.
  unfold_cache. unfold expired.
  destruct (bool_decide (time.Since now (createdAt e) > interval c));
    reflexivity.
Qed.

(** The [range] loop over any list of pairs: it returns, it touches neither
    the mutex nor the interval, it creates no key, it removes the keys
    listed with an expired entry and leaves every other key as it was. *)
Lemma for_each_reapEntry (now : time.Time) (l : list (string * cacheEntry)) :
  forall c : Cache,
  exists c' : Cache,
    for_each l reapEntry now c = Returned tt c' /\
    mu c' = mu c /\
    interval c' = interval c /\
    (forall k, entries c !! k = None -> entries c' !! k = None) /\
    (forall k e, (k, e) ∈ l -> expired now (interval c) e = true ->
                 entries c' !! k = None) /\
    (forall k, (forall e, (k, e) ∈ l -> expired now (interval c) e = false) ->
               entries c' !! k = entries c !! k).
Proof.
  induction l as [|[k0 e0] l IH]; intros c.
  - exists c. simpl. repeat split; try reflexivity; try tauto.
    intros k e Hin. inversion Hin.
  - simpl. unfold mbind, cache_bind, bind. rewrite reapEntry_run.
    set (c1 := if expired now (interval c) e0
               then with_entries (delete k0 (entries c)) c else c).
    assert (Hmu1 : mu c1 = mu c)
      by (subst c1; destruct (expired _ _ _); reflexivity).
    assert (Hint1 : interval c1 = interval c)
      by (subst c1; destruct (expired _ _ _); reflexivity).
    destruct (IH c1) as (c' & Hrun & Hmu & Hint & Hnone & Hdel & Hkeep).
    exists c'. rewrite Hint1 in Hdel, Hkeep.
    split; [exact Hrun|]. split; [congruence|]. split; [congruence|].
    split; [|split].
    + intros k Hk. apply Hnone. subst c1.
      destruct (expired now (interval c) e0); [|exact Hk].
      simpl. rewrite lookup_delete. case_decide; [reflexivity|exact Hk].
    + intros k e Hin Hexp. apply elem_of_cons in Hin as [Heq|Hin].
      * injection Heq as -> ->. apply Hnone. subst c1. rewrite Hexp.
        simpl. apply lookup_delete_eq.
      * eauto.
    + intros k Hall. rewrite Hkeep.
      * subst c1.
        destruct (expired now (interval c) e0) eqn:He0; [|reflexivity].
        simpl. destruct (decide (k = k0)) as [->|Hne].
        -- rewrite (Hall e0) in He0; [discriminate|]. apply elem_of_cons; auto.
        -- apply lookup_delete_ne. congruence.
      * intros e Hin. apply Hall. apply elem_of_cons; auto.
Qed.

(** The loop over the pairs of the map itself, visited in any order [l]:
    each key is decided by its own entry. *)
Lemma for_each_reapEntry_map (now : time.Time) (c : Cache)
    (l : list (string * cacheEntry)) :
  l ≡ₚ map_to_list (entries c) ->
  exists c' : Cache,
    for_each l reapEntry now c = Returned tt c' /\
    mu c' = mu c /\
    interval c' = interval c /\
    forall k,
      entries c' !! k =
        match entries c !! k with
        | Some e => if expired now (interval c) e then None else Some e
        | None => None
        end.
Proof.
  intros Hperm.
  assert (Hin : forall k e, (k, e) ∈ l <-> entries c !! k = Some e).
  { intros k e. rewrite Hperm. apply elem_of_map_to_list. }
  destruct (for_each_reapEntry now l c)
    as (c' & Hrun & Hmu & Hint & Hnone & Hdel & Hkeep).
  exists c'. split; [exact Hrun|]. split; [exact Hmu|]. split; [exact Hint|].
  intros k. destruct (entries c !! k) as [e|] eqn:Hk.
  - destruct (expired now (interval c) e) eqn:He.
    + apply (Hdel k e); [|exact He]. apply Hin. exact Hk.
    + rewrite Hkeep; [exact Hk|]. intros e' Hin'.
      apply Hin in Hin'. congruence.
  - apply Hnone. exact Hk.
Qed.

(** Go visits the map in an order of its choosing; the cache the loop leaves
    does not depend on it. *)
Lemma range_order_irrelevant (now : time.Time) (c : Cache)
    (l : list (string * cacheEntry)) :
  l ≡ₚ map_to_list (entries c) ->
  for_each l reapEntry now c = range_entries reapEntry now c.
Proof.
  intros Hperm.
  destruct (for_each_reapEntry_map now c l Hperm)
    as (c1 & Hrun1 & Hmu1 & Hint1 & Hlook1).
  destruct (for_each_reapEntry_map now c (map_to_list (entries c)) (reflexivity _))
    as (c2 & Hrun2 & Hmu2 & Hint2 & Hlook2).
  unfold range_entries, get_entries, mbind, cache_bind, bind.
  rewrite Hrun1, Hrun2. f_equal.
  destruct c1 as [m1 e1 i1], c2 as [m2 e2 i2]. simpl in *.
  f_equal; [congruence| |congruence].
  apply map_eq. intros k. rewrite Hlook1, Hlook2. reflexivity.
Qed.

(** One sweep pass on a free cache: it returns with the mutex free and the
    interval as it was, and each key is decided by its own entry. *)
Lemma reapPass_run (c : Cache) (now : time.Time) :
  mu c = false ->
  exists c' : Cache,
    reapPass now c = Returned tt c' /\
    mu c' = false /\
    interval c' = interval c /\
    forall k,
      entries c' !! k =
        match entries c !! k with
        | Some e => if expired now (interval c) e then None else Some e
        | None => None
        end.
Proof.
  intros Hmu.
  destruct (for_each_reapEntry_map now (with_mu true c)
              (map_to_list (entries c)) (reflexivity _))
    as (c1 & Hrun & Hmu1 & Hint1 & Hlook).
  simpl in *.
  exists (with_mu false c1).
  split; [|split; [reflexivity|split; [exact Hint1|exact Hlook]]].
  unfold reapPass, range_entries, Lock, Unlock, get_entries,
    mbind, cache_bind, bind.
  rewrite Hmu. simpl. rewrite Hrun, Hmu1. reflexivity.
Qed.

(** *** Sanity checks of the model on concrete inputs *)

Example Add_Get_sample :
  match Add "u" sample_payload 7 (NewCache 100) with
  | Returned _ c => Get "u" 9 c
  | _ => Fatal
  end
  = Returned (sample_payload, true)
      {| mu := false;
         entries := {[ "u" := mkEntry 7 sample_payload ]};
         interval := 100 |}.
Proof. vm_compute. reflexivity. Qed.

Example reap_sample :
  run [(10, CallAdd "old" nil_bytes); (150, CallAdd "new" sample_payload);
       (200, CallReap)] (NewCache 100)
  = Returned tt
      {| mu := false;
         entries := {[ "new" := mkEntry 150 sample_payload ]};
         interval := 100 |}.
Proof. vm_compute. reflexivity. Qed.

Example reap_boundary_sample :
  run [(10, CallAdd "edge" nil_bytes); (110, CallReap)] (NewCache 100)
  = Returned tt
      {| mu := false;
         entries := {[ "edge" := mkEntry 10 nil_bytes ]};
         interval := 100 |}.
Proof. vm_compute. reflexivity. Qed.

Example locked_cache_blocks :
  Get "u" 3 {| mu := true; entries := ∅; interval := 100 |} = Blocked.
Proof. reflexivity. Qed.

Example reapLoop_bad_interval :
  reapLoop 1 [5; 10] (NewCache 0) = Fatal.
Proof. reflexivity. Qed.

(** *** The claims about the cache *)

(** C1 (insert-then-read). On a cache whose mutex is free, [Add(k, v)]
    returns, and a [Get(k)] that follows it with no operation in between
    returns [(v, true)], whatever the clock reads at either call. *)
Theorem Add_then_Get (c : Cache) (k : string) (v : bytes)
    (t_add t_get : time.Time) :
  mu c = false ->
  exists c1 : Cache,
    Add k v t_add c = Returned tt c1 /\
    Get k t_get c1 = Returned (v, true) c1.
Proof.
  intros Hmu. eexists. split; [apply Add_run; exact Hmu|].
  rewrite Get_run by reflexivity. simpl.
  rewrite lookup_insert_eq. reflexivity.
Qed.

Lemma Add_then_Get_witness :
  mu (NewCache 100) = false /\
  exists c1 : Cache,
    Add "u" sample_payload 7 (NewCache 100) = Returned tt c1 /\
    Get "u" 9 c1 = Returned (sample_payload, true) c1.
Proof.
  split; [reflexivity|].
  apply (Add_then_Get (NewCache 100) "u" sample_payload 7 9). reflexivity.
Defined.

(** C2 (no age check on read). If the map holds an entry for [k] when
    [Get(k)] runs, the call returns that entry's payload and [true], at every
    clock reading [now]: also at one where the entry's age is beyond the
    retention interval and no sweep has removed it yet. *)
Theorem Get_hit_at_any_age (c : Cache) (k : string) (e : cacheEntry)
    (now : time.Time) :
  mu c = false ->
  entries c !! k = Some e ->
  Get k now c = Returned (val e, true) c.
Proof.
  intros Hmu Hk. rewrite Get_run by exact Hmu. rewrite Hk. reflexivity.
Qed.

Lemma Get_hit_at_any_age_witness :
  mu stale_cache = false /\
  entries stale_cache !! "u" = Some (mkEntry 7 sample_payload) /\
  interval stale_cache < 5000 - createdAt (mkEntry 7 sample_payload) /\
  expired 5000 (interval stale_cache) (mkEntry 7 sample_payload) = true /\
  Get "u" 5000 stale_cache = Returned (sample_payload, true) stale_cache.
Proof.
  split; [reflexivity|]. split; [reflexivity|]. split; [reflexivity|].
  split; [reflexivity|].
  apply (Get_hit_at_any_age stale_cache "u" (mkEntry 7 sample_payload) 5000);
    reflexivity.
Defined.

Lemma expired_readings (now : time.Time) (limit : time.Duration)
    (e : cacheEntry) :
  time.reading now -> time.reading (createdAt e) ->
  expired now limit e = bool_decide (limit < now - createdAt e).
Proof.
  intros Hn He. unfold expired. rewrite Since_readings by assumption.
  apply bool_decide_ext. lia.
Qed.

(** [stamped] is an invariant of the cache: it holds of a new cache and
    every call that runs at a reading of the clock keeps it. *)
Lemma stamped_perform (cl : call) (c : Cache) (now : time.Time) :
  mu c = false -> time.reading now -> stamped c ->
  exists c' : Cache,
    perform cl now c = Returned tt c' /\ mu c' = false /\ stamped c'.
Proof.
  intros Hmu Hnow Hst. destruct cl as [key v|key|]; simpl.
  - eexists. split; [apply Add_run; exact Hmu|]. split; [reflexivity|].
    intros k e. simpl. rewrite lookup_insert. case_decide.
    + intros [= <-]. exact Hnow.
    + apply Hst.
  - exists c. unfold mbind, cache_bind, bind. rewrite Get_run by exact Hmu.
    auto.
  - destruct (reapPass_run c now Hmu) as (c' & Hrun & Hmu' & _ & Hlook).
    exists c'. split; [exact Hrun|]. split; [exact Hmu'|].
    intros k e. rewrite Hlook. destruct (entries c !! k) as [e0|] eqn:Hk;
      [|discriminate].
    destruct (expired now (interval c) e0); [discriminate|].
    intros [= <-]. exact (Hst k e0 Hk).
Qed.

Lemma stamped_run (h : list (time.Time * call)) :
  Forall (fun ev => time.reading ev.1) h ->
  forall c : Cache,
    mu c = false -> stamped c ->
    exists c' : Cache,
      run h c = Returned tt c' /\ mu c' = false /\ stamped c'.
Proof.
  induction 1 as [|[now cl] h Hnow _ IH]; intros c Hmu Hst.
  - exists c. auto.
  - simpl in *.
    destruct (stamped_perform cl c now Hmu Hnow Hst) as (c1 & Hrun & Hmu1 & Hst1).
    rewrite Hrun. apply IH; assumption.
Qed.

Lemma stamped_NewCache (d : time.Duration) : stamped (NewCache d).
Proof. intros k e Hk. simpl in Hk. rewrite lookup_empty in Hk. discriminate. Qed.

(** C3 (one sweep pass). A pass that runs at the clock reading [now] on a
    free cache returns, and it deletes exactly the entries whose age
    [now - createdAt] is strictly greater than the retention interval: such
    an entry is gone, an entry whose age is at most the interval is still
    there with the same payload and [createdAt], and no key appears. *)
Theorem reapPass_deletes_exactly_expired (c : Cache) (now : time.Time) :
  mu c = false ->
  time.reading now ->
  stamped c ->
  exists c' : Cache,
    reapPass now c = Returned tt c' /\
    forall k,
      (forall e, entries c !! k = Some e ->
                 now - createdAt e > interval c -> entries c' !! k = None) /\
      (forall e, entries c !! k = Some e ->
                 now - createdAt e <= interval c -> entries c' !! k = Some e) /\
      (entries c !! k = None -> entries c' !! k = None).
Proof.
  intros Hmu Hnow Hst.
  destruct (reapPass_run c now Hmu) as (c' & Hrun & _ & _ & Hlook).
  exists c'. split; [exact Hrun|]. intros k. rewrite Hlook.
  repeat split.
  - intros e Hk Hage. rewrite Hk.
    rewrite expired_readings by eauto.
    rewrite bool_decide_eq_true_2 by lia. reflexivity.
  - intros e Hk Hage. rewrite Hk.
    rewrite expired_readings by eauto.
    rewrite bool_decide_eq_false_2 by lia. reflexivity.
  - intros ->. reflexivity.
Qed.

Lemma stamped_sweep_cache : stamped sweep_cache.
Proof.
  intros k e Hk. unfold sweep_cache in Hk. simpl in Hk.
  destruct (decide (k = "old")) as [->|Hold].
  - rewrite lookup_insert_eq in Hk. injection Hk as <-. vm_compute.
    split; discriminate.
  - rewrite lookup_insert_ne in Hk by congruence.
    destruct (decide (k = "new")) as [->|Hnew].
    + rewrite lookup_insert_eq in Hk. injection Hk as <-. vm_compute.
      split; discriminate.
    + rewrite lookup_insert_ne in Hk by congruence.
      rewrite lookup_empty in Hk. discriminate.
Defined.

Lemma reapPass_deletes_exactly_expired_witness :
  mu sweep_cache = false /\
  time.reading 200 /\
  stamped sweep_cache /\
  exists c' : Cache,
    reapPass 200 sweep_cache = Returned tt c' /\
    forall k,
      (forall e, entries sweep_cache !! k = Some e ->
                 200 - createdAt e > interval sweep_cache ->
                 entries c' !! k = None) /\
      (forall e, entries sweep_cache !! k = Some e ->
                 200 - createdAt e <= interval sweep_cache ->
                 entries c' !! k = Some e) /\
      (entries sweep_cache !! k = None -> entries c' !! k = None).
Proof.
  split; [reflexivity|].
  split; [vm_compute; split; discriminate|].
  split; [exact stamped_sweep_cache|].
  apply (reapPass_deletes_exactly_expired sweep_cache 200).
  - reflexivity.
  - vm_compute; split; discriminate.
  - exact stamped_sweep_cache.
Defined.

(** C4 (overwrite). [Add(k, v1)] followed by [Add(k, v2)] leaves the very
    cache that the second [Add] alone leaves: the entry of [k] is the fresh
    one (payload [v2], stamped with the clock of the second call), [Get(k)]
    returns [(v2, true)], and nothing of [v1] or of its stamp remains. *)
Theorem Add_twice_is_last_Add (c : Cache) (k : string) (v1 v2 : bytes)
    (t1 t2 t_get : time.Time) :
  mu c = false ->
  exists c1 c2 : Cache,
    Add k v1 t1 c = Returned tt c1 /\
    Add k v2 t2 c1 = Returned tt c2 /\
    Add k v2 t2 c = Returned tt c2 /\
    entries c2 !! k = Some {| createdAt := t2; val := v2 |} /\
    Get k t_get c2 = Returned (v2, true) c2.
Proof.
  intros Hmu. eexists. eexists.
  split; [apply Add_run; exact Hmu|].
  split; [apply Add_run; reflexivity|]. simpl.
  split; [rewrite insert_insert_eq; apply Add_run; exact Hmu|].
  split; [apply lookup_insert_eq|].
  rewrite Get_run by reflexivity. simpl. rewrite lookup_insert_eq. reflexivity.
Qed.

Lemma Add_twice_is_last_Add_witness :
  mu stale_cache = false /\
  exists c1 c2 : Cache,
    Add "u" nil_bytes 300 stale_cache = Returned tt c1 /\
    Add "u" sample_payload 310 c1 = Returned tt c2 /\
    Add "u" sample_payload 310 stale_cache = Returned tt c2 /\
    entries c2 !! "u" = Some {| createdAt := 310; val := sample_payload |} /\
    Get "u" 320 c2 = Returned (sample_payload, true) c2.
Proof.
  split; [reflexivity|].
  apply (Add_twice_is_last_Add stale_cache "u" nil_bytes sample_payload
           300 310 320).
  reflexivity.
Defined.

(** C5 (miss). [Get(k)] on a cache with no entry for [k] returns the nil
    slice and [false]. The call returns: a miss is neither an error value
    (the result has none) nor a stop of the program. *)
Theorem Get_miss (c : Cache) (k : string) (now : time.Time) :
  mu c = false ->
  entries c !! k = None ->
  Get k now c = Returned (nil_bytes, false) c.
Proof.
  intros Hmu Hk. rewrite Get_run by exact Hmu. rewrite Hk. reflexivity.
Qed.

Lemma Get_miss_witness :
  mu stale_cache = false /\
  entries stale_cache !! "absent" = None /\
  Get "absent" 50 stale_cache = Returned (nil_bytes, false) stale_cache.
Proof.
  split; [reflexivity|]. split; [reflexivity|].
  apply (Get_miss stale_cache "absent" 50); reflexivity.
Defined.

(** C6 (independent keys). For distinct keys [a] and [b]: an [Add] on [a]
    leaves the entry of [b] (presence, payload, [createdAt]) as it was; so
    does the deletion of [a] by the loop body of the sweep; after a whole
    pass, [b] is as it was unless [b]'s own entry was expired; and what a pass
    makes of [b] is the same with [a] in the map or not. *)
Theorem other_key_unaffected (c : Cache) (a b : string) (now : time.Time) :
  a <> b ->
  mu c = false ->
  (forall v, exists c1 : Cache,
     Add a v now c = Returned tt c1 /\
     entries c1 !! b = entries c !! b) /\
  (forall ea, expired now (interval c) ea = true ->
     exists c1 : Cache,
       reapEntry a ea now c = Returned tt c1 /\
       entries c1 !! a = None /\
       entries c1 !! b = entries c !! b) /\
  (forall ea, entries c !! a = Some ea -> expired now (interval c) ea = true ->
     (forall eb, entries c !! b = Some eb ->
                 expired now (interval c) eb = false) ->
     exists c1 : Cache,
       reapPass now c = Returned tt c1 /\
       entries c1 !! a = None /\
       entries c1 !! b = entries c !! b) /\
  (exists c1 c2 : Cache,
     reapPass now c = Returned tt c1 /\
     reapPass now (with_entries (delete a (entries c)) c) = Returned tt c2 /\
     entries c1 !! b = entries c2 !! b).
Proof.
  intros Hab Hmu. split; [|split; [|split]].
  - intros v. eexists. split; [apply Add_run; exact Hmu|].
    simpl. apply lookup_insert_ne. exact Hab.
  - intros ea Hexp. eexists. split; [apply reapEntry_run|].
    rewrite Hexp. simpl. split; [apply lookup_delete_eq|].
    apply lookup_delete_ne. exact Hab.
  - intros ea Ha Hexp Hb.
    destruct (reapPass_run c now Hmu) as (c1 & Hrun & _ & _ & Hlook).
    exists c1. split; [exact Hrun|]. rewrite !Hlook, Ha, Hexp.
    split; [reflexivity|].
    destruct (entries c !! b) as [eb|] eqn:Hkb; [|reflexivity].
    rewrite (Hb eb eq_refl). reflexivity.
  - destruct (reapPass_run c now Hmu) as (c1 & Hrun1 & _ & _ & Hlook1).
    destruct (reapPass_run (with_entries (delete a (entries c)) c) now Hmu)
      as (c2 & Hrun2 & _ & _ & Hlook2).
    exists c1, c2. split; [exact Hrun1|]. split; [exact Hrun2|].
    rewrite Hlook1, Hlook2. simpl.
    rewrite lookup_delete_ne by exact Hab. reflexivity.
Qed.

Lemma other_key_unaffected_witness :
  "old" <> "new" /\
  mu sweep_cache = false /\
  (forall v, exists c1 : Cache,
     Add "old" v 200 sweep_cache = Returned tt c1 /\
     entries c1 !! "new" = entries sweep_cache !! "new") /\
  (exists c1 : Cache,
     reapPass 200 sweep_cache = Returned tt c1 /\
     entries c1 !! "old" = None /\
     entries c1 !! "new" = entries sweep_cache !! "new").
Proof.
  assert (Hne : "old" <> "new") by discriminate.
  split; [exact Hne|]. split; [reflexivity|].
  destruct (other_key_unaffected sweep_cache "old" "new" 200 Hne eq_refl)
    as (Hadd & _ & Hpass & _).
  split; [exact Hadd|].
  apply (Hpass (mkEntry 10 nil_bytes)); [reflexivity|reflexivity|].
  intros eb Hb. vm_compute in Hb. injection Hb as <-. reflexivity.
Defined.

(** Each call of a history returns on a free cache, and leaves the mutex
    free and the interval as it found it. *)
Lemma perform_run (cl : call) (c : Cache) (now : time.Time) :
  mu c = false ->
  exists c' : Cache,
    perform cl now c = Returned tt c' /\
    mu c' = false /\ interval c' = interval c.
Proof.
  intros Hmu. destruct cl as [k v|k|]; simpl.
  - eexists. split; [apply Add_run; exact Hmu|]. split; reflexivity.
  - exists c. unfold mbind, cache_bind, bind. rewrite Get_run by exact Hmu.
    split; [reflexivity|]. split; [exact Hmu|reflexivity].
  - destruct (reapPass_run c now Hmu) as (c' & Hrun & Hmu' & Hint & _).
    exists c'. auto.
Qed.

Lemma run_keeps_interval (h : list (time.Time * call)) :
  forall c : Cache,
    mu c = false ->
    exists c' : Cache,
      run h c = Returned tt c' /\ mu c' = false /\ interval c' = interval c.
Proof.
  induction h as [|[now cl] h IH]; intros c Hmu.
  - exists c. auto.
  - simpl. destruct (perform_run cl c now Hmu) as (c1 & Hrun & Hmu1 & Hint1).
    rewrite Hrun. destruct (IH c1 Hmu1) as (c' & Hrun' & Hmu' & Hint').
    exists c'. split; [exact Hrun'|]. split; [exact Hmu'|]. congruence.
Qed.

(** C7 (the interval is fixed). Whatever [Add], [Get] and sweep passes
    follow [NewCache(d)], in whatever order and at whatever clock readings,
    all of them return and the cache they leave has [interval = d]. *)
Theorem interval_is_invariant (d : time.Duration)
    (h : list (time.Time * call)) :
  exists c : Cache,
    run h (NewCache d) = Returned tt c /\ interval c = d.
Proof.
  destruct (run_keeps_interval h (NewCache d) eq_refl) as (c & Hrun & _ & Hint).
  exists c. split; [exact Hrun|exact Hint].
Qed.

(** C9 ([Get] only reads). On a free cache [Get(k)] returns, and the cache
    it leaves is the cache it found: same map (a miss adds no entry, a hit on
    an entry past the retention interval neither deletes nor restamps it),
    same interval, mutex free again. *)
Theorem Get_leaves_cache_unchanged (c : Cache) (k : string)
    (now : time.Time) :
  mu c = false ->
  exists r : bytes * bool, Get k now c = Returned r c.
Proof.
  intros Hmu. eexists. apply Get_run. exact Hmu.
Qed.

Lemma Get_leaves_cache_unchanged_witness :
  mu stale_cache = false /\
  expired 5000 (interval stale_cache) (mkEntry 7 sample_payload) = true /\
  (exists r, Get "u" 5000 stale_cache = Returned r stale_cache) /\
  (exists r, Get "absent" 5000 stale_cache = Returned r stale_cache).
Proof.
  split; [reflexivity|]. split; [reflexivity|]. split.
  - apply (Get_leaves_cache_unchanged stale_cache "u" 5000). reflexivity.
  - apply (Get_leaves_cache_unchanged stale_cache "absent" 5000). reflexivity.
Defined.

End pokecache_facts.

Module main_facts.
Import main.

Lemma int_sub_exact (a b : Z) : int64_range (a - b) -> int_sub a b = a - b.
Proof. apply wrap64_small. Qed.

Lemma Println_Println (l1 l2 : string) (w : world) :
  Println l2 (Println l1 w) =
    {| userPokedex := userPokedex w; stdout := stdout w ++ [l1; l2] |}.
Proof. unfold Println. simpl. rewrite <- app_assoc. reflexivity. Qed.

(** What the command does with a decoded creature, by the test it makes. *)
Lemma commandCatch_decoded (d : PokemonDetail) (r : Z) (w : world) :
  commandCatch (Decoded d) r w =
    (None, if r <? int_sub 100 (BaseExperience d) then caught d w
           else escaped d w).
Proof.
  unfold commandCatch.
  destruct (r <? int_sub 100 (BaseExperience d)).
  - unfold store. rewrite Println_Println. reflexivity.
  - rewrite Println_Println. reflexivity.
Qed.

(** *** Sanity checks of the model on concrete inputs *)

Example catch_pidgey_low_roll :
  commandCatch (Decoded (creature "pidgey" 50)) 49 empty_world
  = (None,
     {| userPokedex := {[ "pidgey" := creature "pidgey" 50 ]};
        stdout := ["Throwing a Pokeball at pidgey..."; "pidgey was caught!"] |}).
Proof. vm_compute. reflexivity. Qed.

Example catch_pidgey_boundary_roll :
  commandCatch (Decoded (creature "pidgey" 50)) 50 empty_world
  = (None,
     {| userPokedex := ∅;
        stdout := ["Throwing a Pokeball at pidgey..."; "pidgey escaped!"] |}).
Proof. vm_compute. reflexivity. Qed.

Example catch_not_found :
  commandCatch (NotOK "404 Not Found") 3 empty_world
  = (Some "error fetching data: 404 Not Found", empty_world).
Proof. reflexivity. Qed.

(** *** The claim about the catch rule *)

(** C10, as the specification states it, fails where the 64-bit subtraction
    wraps: with base experience [-2^63] and the roll [0], the roll is below
    [100 - base experience], yet [catchChance] is negative, the creature
    escapes and the pokedex stays empty. *)
Lemma catch_rule_wraps_counterexample :
  int64_range (BaseExperience (creature "mew" (- 9223372036854775808))) /\
  Intn100 0 /\
  0 < 100 - BaseExperience (creature "mew" (- 9223372036854775808)) /\
  int_sub 100 (BaseExperience (creature "mew" (- 9223372036854775808)))
    = - 9223372036854775708 /\
  commandCatch (Decoded (creature "mew" (- 9223372036854775808))) 0 empty_world
  = (None,
     {| userPokedex := ∅;
        stdout := ["Throwing a Pokeball at mew..."; "mew escaped!"] |}).
Proof.
  split; [vm_compute; split; discriminate|].
  split; [vm_compute; split; [discriminate|reflexivity]|].
  split; [reflexivity|]. split; [reflexivity|].
  vm_compute. reflexivity.
Qed.

(** C10, amended. The command computes [100 - base experience] in 64-bit
    arithmetic. For a roll in [0..99] and a base experience above
    [-2^63 + 100], where that difference is exact, the creature is caught
    (stored under its name, "was caught!" printed) if and only if the roll is
    strictly below [100 - base experience], and otherwise it escapes with the
    pokedex as it was. Hence for a base experience of at least 100 the catch
    fails at every roll and the pokedex map is unchanged. *)
Theorem catch_rule (d : PokemonDetail) (r : Z) (w : world) :
  Intn100 r ->
  int64_range (BaseExperience d) ->
  (min_int64 + 100 < BaseExperience d ->
     (r < 100 - BaseExperience d ->
        commandCatch (Decoded d) r w = (None, caught d w)) /\
     (100 - BaseExperience d <= r ->
        commandCatch (Decoded d) r w = (None, escaped d w))) /\
  (100 <= BaseExperience d ->
     commandCatch (Decoded d) r w = (None, escaped d w) /\
     userPokedex (snd (commandCatch (Decoded d) r w)) = userPokedex w).
Proof.
  unfold Intn100, int64_range, min_int64, max_int64. intros Hr Hbe.
  rewrite commandCatch_decoded.
  assert (Hexact : - 2 ^ 63 + 100 < BaseExperience d ->
                   int_sub 100 (BaseExperience d) = 100 - BaseExperience d).
  { intros Hlow. apply int_sub_exact.
    unfold int64_range, min_int64, max_int64. lia. }
  split.
  - intros Hlow. rewrite (Hexact Hlow). split; intros Hroll.
    + rewrite (proj2 (Z.ltb_lt _ _)) by exact Hroll. reflexivity.
    + rewrite (proj2 (Z.ltb_ge _ _)) by exact Hroll. reflexivity.
  - intros Hhigh. rewrite Hexact by lia.
    rewrite (proj2 (Z.ltb_ge _ _)) by lia. split; reflexivity.
Qed.

Lemma catch_rule_witness :
  Intn100 49 /\
  int64_range (BaseExperience (creature "pidgey" 50)) /\
  min_int64 + 100 < BaseExperience (creature "pidgey" 50) /\
  49 < 100 - BaseExperience (creature "pidgey" 50) /\
  commandCatch (Decoded (creature "pidgey" 50)) 49 empty_world
    = (None, caught (creature "pidgey" 50) empty_world).
Proof.
  assert (Hr : Intn100 49) by (vm_compute; split; [discriminate|reflexivity]).
  assert (Hbe : int64_range (BaseExperience (creature "pidgey" 50)))
    by (vm_compute; split; discriminate).
  assert (Hlow : min_int64 + 100 < BaseExperience (creature "pidgey" 50))
    by reflexivity.
  assert (Hroll : 49 < 100 - BaseExperience (creature "pidgey" 50))
    by reflexivity.
  split; [exact Hr|]. split; [exact Hbe|]. split; [exact Hlow|].
  split; [exact Hroll|].
  exact (proj1 (proj1 (catch_rule (creature "pidgey" 50) 49 empty_world Hr Hbe)
                  Hlow) Hroll).
Defined.

End main_facts.

(** ** More about the cache: sweeps, histories, the sweeper loop *)

Module pokecache_more.
Import pokecache pokecache_facts.

Lemma cache_eq (c1 c2 : Cache) :
  mu c1 = mu c2 -> interval c1 = interval c2 ->
  (forall k, entries c1 !! k = entries c2 !! k) ->
  c1 = c2.
Proof.
  destruct c1 as [m1 e1 i1], c2 as [m2 e2 i2]. simpl.
  intros -> -> Hlook. f_equal. apply map_eq. exact Hlook.
Qed.

Lemma run_app (h1 h2 : list (time.Time * call)) (c : Cache) :
  run (h1 ++ h2) c =
    match run h1 c with
    | Returned _ c' => run h2 c'
    | Blocked => Blocked
    | Fatal => Fatal
    end.
Proof.
  revert c. induction h1 as [|[now cl] h1 IH]; intros c; simpl.
  - reflexivity.
  - destruct (perform cl now c); auto.
Qed.

Lemma reapTicks_run (ticks : list time.Time) (c : Cache) :
  reapTicks ticks c = run (map (fun now => (now, CallReap)) ticks) c.
Proof.
  revert c. induction ticks as [|now ticks IH]; intros c; simpl.
  - reflexivity.
  - destruct (reapPass now c); auto.
Qed.

(** What one call of a history does to the entry of a key. *)
Lemma perform_lookup (cl : call) (c : Cache) (now : time.Time) (k : string) :
  mu c = false ->
  exists c' : Cache,
    perform cl now c = Returned tt c' /\
    mu c' = false /\ interval c' = interval c /\
    entries c' !! k =
      match cl with
      | CallAdd key v =>
          if decide (key = k) then Some (mkEntry now v) else entries c !! k
      | CallGet _ => entries c !! k
      | CallReap =>
          match entries c !! k with
          | Some e => if expired now (interval c) e then None else Some e
          | None => None
          end
      end.
Proof.
  intros Hmu. destruct cl as [key v|key|]; simpl.
  - eexists. split; [apply Add_run; exact Hmu|]. simpl.
    split; [reflexivity|]. split; [reflexivity|]. apply lookup_insert.
  - exists c. unfold mbind, cache_bind, bind. rewrite Get_run by exact Hmu.
    auto.
  - destruct (reapPass_run c now Hmu) as (c' & Hrun & Hmu' & Hint & Hlook).
    exists c'. auto.
Qed.

(** X1 (eviction after retention). [Add(k, v)] at the clock reading [t0]
    followed by a sweep pass at a reading [now] with [now - t0] strictly
    above the retention interval leaves no entry for [k]: every later
    [Get(k)] returns the nil slice and [false]. *)
Theorem sweep_evicts_after_retention (c : Cache) (k : string) (v : bytes)
    (t0 now : time.Time) :
  mu c = false ->
  time.reading t0 -> time.reading now ->
  now - t0 > interval c ->
  exists c1 c2 : Cache,
    Add k v t0 c = Returned tt c1 /\
    reapPass now c1 = Returned tt c2 /\
    forall t, Get k t c2 = Returned (nil_bytes, false) c2.
Proof.
  intros Hmu Ht0 Hnow Hage.
  eexists. destruct (reapPass_run
    {| mu := false; entries := <[k := mkEntry t0 v]> (entries c);
       interval := interval c |} now eq_refl) as (c2 & Hrun & Hmu2 & _ & Hlook).
  exists c2. split; [apply Add_run; exact Hmu|]. split; [exact Hrun|].
  intros t. rewrite Get_run by exact Hmu2. rewrite Hlook. simpl.
  rewrite lookup_insert_eq. unfold expired. simpl.
  rewrite Since_readings by assumption.
  rewrite bool_decide_eq_true_2 by lia. reflexivity.
Qed.

Lemma sweep_evicts_after_retention_witness :
  mu stale_cache = false /\ time.reading 20 /\ time.reading 121 /\
  121 - 20 > interval stale_cache /\
  exists c1 c2 : Cache,
    Add "v" sample_payload 20 stale_cache = Returned tt c1 /\
    reapPass 121 c1 = Returned tt c2 /\
    forall t, Get "v" t c2 = Returned (nil_bytes, false) c2.
Proof.
  assert (H20 : time.reading 20) by (vm_compute; split; discriminate).
  assert (H121 : time.reading 121) by (vm_compute; split; discriminate).
  assert (Hage : 121 - 20 > interval stale_cache) by reflexivity.
  split; [reflexivity|]. split; [exact H20|]. split; [exact H121|].
  split; [exact Hage|].
  exact (sweep_evicts_after_retention stale_cache "v" sample_payload 20 121
           eq_refl H20 H121 Hage).
Defined.

(** X2 (idempotent sweep). A second pass at the clock reading of the first
    finds nothing to remove: it returns the cache the first one left. *)
Theorem reapPass_idempotent (c c1 : Cache) (now : time.Time) :
  reapPass now c = Returned tt c1 ->
  reapPass now c1 = Returned tt c1.
Proof.
  intros Hrun.
  assert (Hmu : mu c = false).
  { destruct (mu c) eqn:Hm; [|reflexivity].
    unfold reapPass, Lock, mbind, cache_bind, bind in Hrun.
    rewrite Hm in Hrun. discriminate. }
  destruct (reapPass_run c now Hmu) as (c1' & Hrun' & Hmu1 & Hint1 & Hlook1).
  assert (c1' = c1) as -> by congruence.
  destruct (reapPass_run c1 now Hmu1) as (c2 & Hrun2 & Hmu2 & Hint2 & Hlook2).
  rewrite Hrun2. f_equal. apply cache_eq; [congruence|congruence|].
  intros k. rewrite Hlook2. destruct (entries c1 !! k) as [e|] eqn:Hk;
    [|reflexivity].
  rewrite Hlook1 in Hk. destruct (entries c !! k) as [e0|]; [|discriminate].
  rewrite Hint1. destruct (expired now (interval c) e0) eqn:He; [discriminate|].
  injection Hk as <-. rewrite He. reflexivity.
Qed.

Lemma reapPass_idempotent_witness :
  reapPass 200 sweep_cache
    = Returned tt {| mu := false;
                     entries := {[ "new" := mkEntry 150 sample_payload ]};
                     interval := 100 |} /\
  reapPass 200 {| mu := false;
                  entries := {[ "new" := mkEntry 150 sample_payload ]};
                  interval := 100 |}
    = Returned tt {| mu := false;
                     entries := {[ "new" := mkEntry 150 sample_payload ]};
                     interval := 100 |}.
Proof.
  assert (Hrun : reapPass 200 sweep_cache
    = Returned tt {| mu := false;
                     entries := {[ "new" := mkEntry 150 sample_payload ]};
                     interval := 100 |}) by (vm_compute; reflexivity).
  split; [exact Hrun|].
  exact (reapPass_idempotent sweep_cache _ 200 Hrun).
Defined.

(** A run of calls on a free cache returns, and each key ends where the
    calls, taken one after the other, put it. *)
Lemma run_free (h : list (time.Time * call)) (c : Cache) :
  mu c = false ->
  exists c' : Cache,
    run h c = Returned tt c' /\ mu c' = false /\ interval c' = interval c.
Proof.
  revert c. induction h as [|[now cl] h IH]; intros c Hmu.
  - exists c. auto.
  - simpl. destruct (perform_lookup cl c now "" Hmu)
      as (c1 & Hrun & Hmu1 & Hint1 & _).
    rewrite Hrun. destruct (IH c1 Hmu1) as (c' & Hrun' & Hmu' & Hint').
    exists c'. split; [exact Hrun'|]. split; [exact Hmu'|]. congruence.
Qed.

(** Sweep passes alone only take entries away. *)
Lemma reapTicks_subseteq (ticks : list time.Time) (c : Cache) :
  mu c = false ->
  exists c' : Cache,
    reapTicks ticks c = Returned tt c' /\
    mu c' = false /\ interval c' = interval c /\
    entries c' ⊆ entries c.
Proof.
  revert c. induction ticks as [|now ticks IH]; intros c Hmu; simpl.
  - exists c. auto.
  - destruct (reapPass_run c now Hmu) as (c1 & Hrun & Hmu1 & Hint1 & Hlook).
    rewrite Hrun. destruct (IH c1 Hmu1) as (c' & Hrun' & Hmu' & Hint' & Hsub).
    exists c'. split; [exact Hrun'|]. split; [exact Hmu'|].
    split; [congruence|].
    etrans; [exact Hsub|]. apply map_subseteq_spec. intros k e.
    rewrite Hlook. destruct (entries c !! k) as [e0|]; [|discriminate].
    destruct (expired now (interval c) e0); [discriminate|auto].
Qed.

(** X3 (the sweeper loop). Started on a cache whose interval is zero or
    negative, [reapLoop] dies in [time.NewTicker] before its first pass. With
    a positive interval and a free mutex it gets through every tick: it
    leaves the mutex free and the interval as it was, and every entry it
    leaves is an entry it found, unchanged (a sweep adds and rewrites
    nothing). *)
Theorem reapLoop_outcome (c : Cache) (start : time.Time)
    (ticks : list time.Time) :
  (interval c <= 0 -> reapLoop start ticks c = Fatal) /\
  (0 < interval c -> mu c = false ->
     exists c' : Cache,
       reapLoop start ticks c = Returned tt c' /\
       mu c' = false /\ interval c' = interval c /\
       entries c' ⊆ entries c).
Proof.
  unfold reapLoop, get_interval, NewTicker, mbind, cache_bind, bind. split.
  - intros Hd. rewrite bool_decide_eq_true_2 by exact Hd. reflexivity.
  - intros Hd Hmu. rewrite bool_decide_eq_false_2 by lia.
    apply reapTicks_subseteq. exact Hmu.
Qed.

Lemma reapLoop_outcome_witness :
  reapLoop 1 [150; 250] (NewCache 0) = Fatal /\
  0 < interval sweep_cache /\ mu sweep_cache = false /\
  exists c' : Cache,
    reapLoop 1 [150; 250] sweep_cache = Returned tt c' /\
    mu c' = false /\ interval c' = interval sweep_cache /\
    entries c' ⊆ entries sweep_cache.
Proof.
  split.
  - apply (proj1 (reapLoop_outcome (NewCache 0) 1 [150; 250])).
    vm_compute. discriminate.
  - split; [reflexivity|]. split; [reflexivity|].
    apply (proj2 (reapLoop_outcome sweep_cache 1 [150; 250])); reflexivity.
Defined.

(** X4 (an entry over a run of ticks). With no [Add] in between, an entry is
    gone after a run of sweep passes exactly when one of them ran at a clock
    reading at which [time.Since(createdAt) > interval]; otherwise it is
    still there, unchanged. *)
Theorem reapTicks_entry (ticks : list time.Time) (c : Cache) (k : string)
    (e : cacheEntry) :
  mu c = false ->
  entries c !! k = Some e ->
  exists c' : Cache,
    reapTicks ticks c = Returned tt c' /\
    entries c' !! k =
      if existsb (fun now => expired now (interval c) e) ticks
      then None else Some e.
Proof.
  revert c. induction ticks as [|now ticks IH]; intros c Hmu Hk; simpl.
  - exists c. auto.
  - destruct (reapPass_run c now Hmu) as (c1 & Hrun & Hmu1 & Hint1 & Hlook).
    rewrite Hrun. specialize (Hlook k). rewrite Hk in Hlook.
    destruct (expired now (interval c) e) eqn:He; simpl.
    + destruct (reapTicks_subseteq ticks c1 Hmu1)
        as (c' & Hrun' & _ & _ & Hsub).
      exists c'. split; [exact Hrun'|].
      destruct (entries c' !! k) as [e'|] eqn:Hk'; [|reflexivity].
      apply (lookup_weaken _ _ _ _ Hk') in Hsub. congruence.
    + destruct (IH c1 Hmu1 Hlook) as (c' & Hrun' & Hk').
      exists c'. rewrite Hint1 in Hk'. auto.
Qed.

Lemma reapTicks_entry_witness :
  mu sweep_cache = false /\
  entries sweep_cache !! "new" = Some (mkEntry 150 sample_payload) /\
  existsb (fun now => expired now (interval sweep_cache)
                        (mkEntry 150 sample_payload)) [200; 250; 300] = true /\
  exists c' : Cache,
    reapTicks [200; 250; 300] sweep_cache = Returned tt c' /\
    entries c' !! "new" =
      if existsb (fun now => expired now (interval sweep_cache)
                               (mkEntry 150 sample_payload)) [200; 250; 300]
      then None else Some (mkEntry 150 sample_payload).
Proof.
  split; [reflexivity|]. split; [reflexivity|]. split; [reflexivity|].
  apply (reapTicks_entry [200; 250; 300] sweep_cache "new"
           (mkEntry 150 sample_payload)); reflexivity.
Defined.

(** Over calls that do not [Add] the key, an absent key stays absent. *)
Lemma run_stays_absent (h : list (time.Time * call)) (k : string) :
  Forall (fun ev => forall v, ev.2 <> CallAdd k v) h ->
  forall c : Cache,
    mu c = false -> entries c !! k = None ->
    exists c' : Cache,
      run h c = Returned tt c' /\ mu c' = false /\
      interval c' = interval c /\ entries c' !! k = None.
Proof.
  induction 1 as [|[now cl] h Hcl _ IH]; intros c Hmu Hk.
  - exists c. auto.
  - simpl in *.
    destruct (perform_lookup cl c now k Hmu) as (c1 & Hrun & Hmu1 & Hint1 & Hk1).
    rewrite Hrun.
    assert (Hnone : entries c1 !! k = None).
    { rewrite Hk1. destruct cl as [key v|key|].
      - case_decide; [subst key; destruct (Hcl v eq_refl)|exact Hk].
      - exact Hk.
      - rewrite Hk. reflexivity. }
    destruct (IH c1 Hmu1 Hnone) as (c' & Hrun' & Hmu' & Hint' & Hk').
    exists c'. split; [exact Hrun'|]. split; [exact Hmu'|].
    split; [congruence|exact Hk'].
Qed.

(** Over calls that do not [Add] the key, its entry is still the same or
    gone. *)
Lemma run_same_or_gone (h : list (time.Time * call)) (k : string)
    (e : cacheEntry) :
  Forall (fun ev => forall v, ev.2 <> CallAdd k v) h ->
  forall c : Cache,
    mu c = false -> entries c !! k = Some e ->
    exists c' : Cache,
      run h c = Returned tt c' /\ mu c' = false /\
      interval c' = interval c /\
      (entries c' !! k = Some e \/ entries c' !! k = None).
Proof.
  induction 1 as [|[now cl] h Hcl Hall IH]; intros c Hmu Hk.
  - exists c. auto.
  - simpl in *.
    destruct (perform_lookup cl c now k Hmu) as (c1 & Hrun & Hmu1 & Hint1 & Hk1).
    rewrite Hrun.
    assert (Hcase : entries c1 !! k = Some e \/ entries c1 !! k = None).
    { rewrite Hk1. destruct cl as [key v|key|].
      - case_decide; [subst key; destruct (Hcl v eq_refl)|auto].
      - auto.
      - rewrite Hk. destruct (expired now (interval c) e); auto. }
    destruct Hcase as [Hsome|Hnone].
    + destruct (IH c1 Hmu1 Hsome) as (c' & Hrun' & Hmu' & Hint' & Hk').
      exists c'. split; [exact Hrun'|]. split; [exact Hmu'|].
      split; [congruence|exact Hk'].
    + destruct (run_stays_absent h k Hall c1 Hmu1 Hnone)
        as (c' & Hrun' & Hmu' & Hint' & Hk').
      exists c'. split; [exact Hrun'|]. split; [exact Hmu'|].
      split; [congruence|auto].
Qed.

(** X5 (the last [Add] is what [Get] serves). In any history after
    [NewCache(d)], take an [Add(k, v)] at the clock reading [t]: if no later
    call adds [k] again and no later sweep pass runs at a reading at which
    [time.Since(t) > d], then [Get(k)] returns [(v, true)], whatever came
    before that [Add] and whatever other keys were added, read or swept. *)
Theorem last_Add_is_served (d : time.Duration)
    (h1 h2 : list (time.Time * call)) (k : string) (v : bytes)
    (t : time.Time) :
  Forall (fun ev =>
            match ev.2 with
            | CallAdd key _ => key <> k
            | CallGet _ => True
            | CallReap => expired ev.1 d (mkEntry t v) = false
            end) h2 ->
  exists c : Cache,
    run (h1 ++ (t, CallAdd k v) :: h2) (NewCache d) = Returned tt c /\
    entries c !! k = Some (mkEntry t v) /\
    forall t', Get k t' c = Returned (v, true) c.
Proof.
  intros Hlater. rewrite run_app.
  destruct (run_free h1 (NewCache d) eq_refl) as (c1 & Hrun1 & Hmu1 & Hint1).
  rewrite Hrun1. simpl in Hint1. simpl.
  rewrite Add_run by exact Hmu1. rewrite Hint1.
  set (c2 := {| mu := false; entries := <[k := mkEntry t v]> (entries c1);
                interval := d |}).
  assert (Hinv : mu c2 = false /\ interval c2 = d /\
                 entries c2 !! k = Some (mkEntry t v)).
  { split; [reflexivity|]. split; [reflexivity|]. apply lookup_insert_eq. }
  clearbody c2. revert c2 Hinv.
  induction Hlater as [|[now cl] h2 Hcl _ IH]; intros c2 (Hmu2 & Hint2 & Hk2).
  - exists c2. simpl. split; [reflexivity|]. split; [exact Hk2|].
    intros t'. rewrite Get_run by exact Hmu2. rewrite Hk2. reflexivity.
  - simpl in *.
    destruct (perform_lookup cl c2 now k Hmu2) as (c3 & Hrun & Hmu3 & Hint3 & Hk3).
    rewrite Hrun. apply IH. split; [exact Hmu3|]. split; [congruence|].
    rewrite Hk3. destruct cl as [key v'|key|].
    + case_decide; [contradiction|exact Hk2].
    + exact Hk2.
    + rewrite Hk2, Hint2, Hcl. reflexivity.
Qed.

Lemma last_Add_is_served_witness :
  exists c : Cache,
    run ([(5, CallAdd "u" nil_bytes); (30, CallReap)] ++
         (40, CallAdd "u" sample_payload) ::
         [(50, CallAdd "w" nil_bytes); (120, CallReap); (130, CallGet "u")])
        (NewCache 100) = Returned tt c /\
    entries c !! "u" = Some (mkEntry 40 sample_payload) /\
    forall t', Get "u" t' c = Returned (sample_payload, true) c.
Proof.
  apply (last_Add_is_served 100 [(5, CallAdd "u" nil_bytes); (30, CallReap)]
           [(50, CallAdd "w" nil_bytes); (120, CallReap); (130, CallGet "u")]
           "u" sample_payload 40).
  repeat constructor. simpl. discriminate.
Defined.

(** X6 (a swept entry stays away). If, after an [Add(k, v)] at the reading
    [t], a sweep pass runs at a reading at which [time.Since(t) > d], and
    nothing adds [k] again after that [Add], then at the end of the history
    [k] has no entry and [Get(k)] returns the nil slice and [false]. *)
Theorem swept_entry_is_gone (d : time.Duration)
    (h1 h2 h3 : list (time.Time * call)) (k : string) (v : bytes)
    (t now : time.Time) :
  Forall (fun ev => forall v', ev.2 <> CallAdd k v') (h2 ++ h3) ->
  expired now d (mkEntry t v) = true ->
  exists c : Cache,
    run (h1 ++ (t, CallAdd k v) :: h2 ++ (now, CallReap) :: h3) (NewCache d)
      = Returned tt c /\
    entries c !! k = None /\
    forall t', Get k t' c = Returned (nil_bytes, false) c.
Proof.
  intros Hno Hexp. apply Forall_app in Hno as [Hno2 Hno3].
  rewrite run_app.
  destruct (run_free h1 (NewCache d) eq_refl) as (c1 & Hrun1 & Hmu1 & Hint1).
  rewrite Hrun1. simpl in Hint1. simpl.
  rewrite Add_run by exact Hmu1. rewrite Hint1, run_app.
  destruct (run_same_or_gone h2 k (mkEntry t v) Hno2
              {| mu := false; entries := <[k := mkEntry t v]> (entries c1);
                 interval := d |} eq_refl (lookup_insert_eq _ _ _))
    as (c2 & Hrun2 & Hmu2 & Hint2 & Hk2).
  rewrite Hrun2. simpl in Hint2. simpl.
  destruct (reapPass_run c2 now Hmu2) as (c3 & Hrun3 & Hmu3 & Hint3 & Hlook3).
  rewrite Hrun3.
  assert (Hk3 : entries c3 !! k = None).
  { rewrite Hlook3. destruct Hk2 as [-> | ->]; [|reflexivity].
    rewrite Hint2, Hexp. reflexivity. }
  destruct (run_stays_absent h3 k Hno3 c3 Hmu3 Hk3)
    as (c & Hrun & Hmu & _ & Hk).
  exists c. split; [exact Hrun|]. split; [exact Hk|].
  intros t'. rewrite Get_run by exact Hmu. rewrite Hk. reflexivity.
Qed.

Lemma swept_entry_is_gone_witness :
  expired 141 100 (mkEntry 40 sample_payload) = true /\
  exists c : Cache,
    run ([(5, CallAdd "w" nil_bytes)] ++
         (40, CallAdd "u" sample_payload) ::
         [(100, CallReap); (110, CallGet "u")] ++
         (141, CallReap) :: [(150, CallAdd "w" sample_payload)])
        (NewCache 100) = Returned tt c /\
    entries c !! "u" = None /\
    forall t', Get "u" t' c = Returned (nil_bytes, false) c.
Proof.
  split; [reflexivity|].
  apply (swept_entry_is_gone 100 [(5, CallAdd "w" nil_bytes)]
           [(100, CallReap); (110, CallGet "u")]
           [(150, CallAdd "w" sample_payload)] "u" sample_payload 40 141).
  - repeat constructor; simpl; intros v'; discriminate.
  - reflexivity.
Defined.

(** X7 (provenance). Whatever the history after [NewCache(d)], an entry the
    cache holds was put there by an [Add] of that history: same key, same
    payload, and [createdAt] is the clock reading of that [Add]. The cache
    makes up no payload and no stamp. *)
Theorem entries_come_from_Add (d : time.Duration)
    (h : list (time.Time * call)) (c : Cache) (k : string) (e : cacheEntry) :
  run h (NewCache d) = Returned tt c ->
  entries c !! k = Some e ->
  (createdAt e, CallAdd k (val e)) ∈ h.
Proof.
  assert (Hgen : forall c0, mu c0 = false ->
            run h c0 = Returned tt c -> entries c !! k = Some e ->
            entries c0 !! k = Some e \/ (createdAt e, CallAdd k (val e)) ∈ h).
  { induction h as [|[now cl] h IH]; intros c0 Hmu0 Hrun Hk.
    - simpl in Hrun. injection Hrun as <-. auto.
    - simpl in Hrun.
      destruct (perform_lookup cl c0 now k Hmu0)
        as (c1 & Hrun1 & Hmu1 & _ & Hk1).
      rewrite Hrun1 in Hrun.
      destruct (IH c1 Hmu1 Hrun Hk) as [Hin1|Hin]; [|right; right; exact Hin].
      rewrite Hk1 in Hin1. destruct cl as [key v|key|].
      + case_decide.
        * subst key. injection Hin1 as <-. simpl. right. left.
        * auto.
      + auto.
      + destruct (entries c0 !! k) as [e0|]; [|discriminate].
        destruct (expired now (interval c0) e0); [discriminate|auto]. }
  intros Hrun Hk. destruct (Hgen (NewCache d) eq_refl Hrun Hk) as [Hinit|Hin].
  - simpl in Hinit. rewrite lookup_empty in Hinit. discriminate.
  - exact Hin.
Qed.

Lemma entries_come_from_Add_witness :
  (createdAt (mkEntry 150 sample_payload),
   CallAdd "new" (val (mkEntry 150 sample_payload)))
  ∈ [(10, CallAdd "old" nil_bytes); (150, CallAdd "new" sample_payload);
     (200, CallReap)].
Proof.
  apply (entries_come_from_Add 100
           [(10, CallAdd "old" nil_bytes); (150, CallAdd "new" sample_payload);
            (200, CallReap)]
           {| mu := false;
              entries := {[ "new" := mkEntry 150 sample_payload ]};
              interval := 100 |} "new" (mkEntry 150 sample_payload)).
  - vm_compute. reflexivity.
  - reflexivity.
Defined.

End pokecache_more.

(** ** The catch rule, the pokedex commands *)

Module commands_facts.
Import pokecache main commands.

Lemma PrintAll_cons (line : string) (lines : list string) (w : world) :
  PrintAll (line :: lines) w = PrintAll lines (Println line w).
Proof. reflexivity. Qed.

Lemma PrintAll_stdout (lines : list string) (w : world) :
  stdout (PrintAll lines w) = stdout w ++ lines.
Proof.
  revert w. induction lines as [|line lines IH]; intros w.
  - simpl. rewrite app_nil_r. reflexivity.
  - rewrite PrintAll_cons, IH. simpl. rewrite <- app_assoc. reflexivity.
Qed.

Lemma PrintAll_userPokedex (lines : list string) (w : world) :
  userPokedex (PrintAll lines w) = userPokedex w.
Proof.
  revert w. induction lines as [|line lines IH]; intros w.
  - reflexivity.
  - rewrite PrintAll_cons, IH. reflexivity.
Qed.

Lemma world_eq (w1 w2 : world) :
  userPokedex w1 = userPokedex w2 -> stdout w1 = stdout w2 -> w1 = w2.
Proof. destruct w1, w2. simpl. intros -> ->. reflexivity. Qed.

Lemma state_eta (s : state) :
  {| config := config s; cache := cache s; env := env s |} = s.
Proof. destruct s. reflexivity. Qed.

Lemma catch_test (d : PokemonDetail) (r : Z) (w : world) :
  commandCatch (Decoded d) r w =
    (None, if r <? int_sub 100 (BaseExperience d) then caught d w
           else escaped d w).
Proof.
  unfold commandCatch, caught, escaped, store, Println. simpl.
  destruct (r <? int_sub 100 (BaseExperience d)); simpl;
    rewrite <- app_assoc; reflexivity.
Qed.

Lemma caught_not_escaped (d : PokemonDetail) (w : world) :
  caught d w <> escaped d w.
Proof.
  unfold caught, escaped. intros Heq. injection Heq as _ Hout.
  apply app_inv_head in Hout. injection Hout as Hline.
  induction (Name d) as [|a n IH]; simpl in Hline.
  - discriminate.
  - injection Hline as Hline. auto.
Qed.

(** *** Sanity checks of the model on concrete inputs *)

Example inspect_sample :
  commandInspect "pidgey" (caught (creature "pidgey" 50) empty_world)
  = (None,
     {| userPokedex := {[ "pidgey" := creature "pidgey" 50 ]};
        stdout := ["Throwing a Pokeball at pidgey..."; "pidgey was caught!";
                   "Name: pidgey"; "Height: 4"; "Weight: 60"; "Stats:";
                   "  -hp: 35"; "Types:"; "  - electric"] |}).
Proof. vm_compute. reflexivity. Qed.

Example pokedex_sample :
  commandPokedex (caught (creature "pidgey" 50) empty_world)
  = (None,
     {| userPokedex := {[ "pidgey" := creature "pidgey" 50 ]};
        stdout := ["Throwing a Pokeball at pidgey..."; "pidgey was caught!";
                   "Your Pokedex:"; " - pidgey"] |}).
Proof. vm_compute. reflexivity. Qed.

Example explore_sample :
  dispatch sample_externals ["explore"; "viridian-forest"] 1000 0 initial_state
  = Done None
      {| config := config initial_state;
         cache := {| mu := false;
                     entries := {[ viridian_url :=
                                     mkEntry 1000 (Some viridian_body) ]};
                     interval := 300000000000 |};
         env := {| userPokedex := ∅;
                   stdout := ["Welcome to the Pokedex!"; "Found Pokémon:";
                              " - pidgey"; " - weedle"] |} |}.
Proof. vm_compute. reflexivity. Qed.

Example map_sample :
  dispatch offline ["map"] 1000 0 initial_state
  = Done None
      (say "Error: dial tcp: network is unreachable" initial_state).
Proof. vm_compute. reflexivity. Qed.

(** *** The catch command *)

(** X8 (what a catch can touch). [commandCatch] never removes a name from
    the pokedex, it leaves the entry of every name other than the decoded
    creature's own as it was, and when the request or the decoding failed it
    returns the error and leaves pokedex and output untouched. *)
Theorem commandCatch_frame (resp : response) (r : Z) (w : world) :
  (forall n, is_Some (userPokedex w !! n) ->
             is_Some (userPokedex (commandCatch resp r w).2 !! n)) /\
  (forall n, (forall d, resp = Decoded d -> Name d <> n) ->
             userPokedex (commandCatch resp r w).2 !! n = userPokedex w !! n) /\
  ((forall d, resp <> Decoded d) ->
     exists err, commandCatch resp r w = (Some err, w)).
Proof.
  destruct resp as [err|status|err|d].
  1-3: simpl; split; [auto|split; [auto|eauto]].
  rewrite catch_test.
  destruct (r <? int_sub 100 (BaseExperience d)); simpl.
  - split; [|split].
    + intros n Hn. rewrite lookup_insert. case_decide; [eauto|exact Hn].
    + intros n Hne. apply lookup_insert_ne. exact (Hne d eq_refl).
    + intros Hno. destruct (Hno d eq_refl).
  - split; [auto|split; [auto|]].
    intros Hno. destruct (Hno d eq_refl).
Qed.

Lemma commandCatch_frame_witness :
  userPokedex (commandCatch (Decoded (creature "weedle" 39)) 3
                 (caught (creature "pidgey" 50) empty_world)).2 !! "pidgey"
  = userPokedex (caught (creature "pidgey" 50) empty_world) !! "pidgey".
Proof.
  apply (proj1 (proj2 (commandCatch_frame (Decoded (creature "weedle" 39)) 3
                         (caught (creature "pidgey" 50) empty_world)))).
  intros d [= <-]. discriminate.
Defined.

(** X9 (a sure catch). A creature whose base experience is zero or
    negative (and above [-2^63 + 100]) is caught at every roll of [0..99]:
    the catch chance is at least 100. Zero is what a missing or null
    [base_experience] decodes to. *)
Theorem catch_is_sure_without_experience (d : PokemonDetail) (r : Z)
    (w : world) :
  Intn100 r ->
  min_int64 + 100 < BaseExperience d <= 0 ->
  commandCatch (Decoded d) r w = (None, caught d w).
Proof.
  unfold Intn100, min_int64. intros Hr Hbe. rewrite catch_test.
  unfold int_sub. rewrite wrap64_small
    by (unfold int64_range, min_int64, max_int64; lia).
  rewrite (proj2 (Z.ltb_lt _ _)) by lia. reflexivity.
Qed.

Lemma catch_is_sure_without_experience_witness :
  Intn100 99 /\
  min_int64 + 100 < BaseExperience (creature "missingno" 0) <= 0 /\
  commandCatch (Decoded (creature "missingno" 0)) 99 empty_world
    = (None, caught (creature "missingno" 0) empty_world).
Proof.
  assert (Hr : Intn100 99) by (vm_compute; split; [discriminate|reflexivity]).
  assert (Hbe : min_int64 + 100 < BaseExperience (creature "missingno" 0) <= 0)
    by (vm_compute; split; [reflexivity|discriminate]).
  split; [exact Hr|]. split; [exact Hbe|].
  exact (catch_is_sure_without_experience (creature "missingno" 0) 99
           empty_world Hr Hbe).
Defined.

(** X10 (higher experience, lower chance). Between two creatures whose base
    experiences are above [-2^63 + 100], a roll that catches the one with the
    higher base experience also catches the other. *)
Theorem catch_chance_is_antitone (d1 d2 : PokemonDetail) (r : Z)
    (w1 w2 : world) :
  min_int64 + 100 < BaseExperience d1 ->
  BaseExperience d1 <= BaseExperience d2 ->
  BaseExperience d2 <= max_int64 ->
  commandCatch (Decoded d2) r w2 = (None, caught d2 w2) ->
  commandCatch (Decoded d1) r w1 = (None, caught d1 w1).
Proof.
  unfold min_int64, max_int64. intros Hlow Hle Hmax Hcatch.
  rewrite catch_test in *. unfold int_sub in *.
  rewrite wrap64_small in Hcatch
    by (unfold int64_range, min_int64, max_int64; lia).
  rewrite wrap64_small by (unfold int64_range, min_int64, max_int64; lia).
  destruct (Z.lt_ge_cases r (100 - BaseExperience d2)) as [Hroll|Hroll].
  - rewrite (proj2 (Z.ltb_lt _ _)) by lia. reflexivity.
  - rewrite (proj2 (Z.ltb_ge _ _)) in Hcatch by lia.
    destruct (caught_not_escaped d2 w2). congruence.
Qed.

Lemma catch_chance_is_antitone_witness :
  commandCatch (Decoded (creature "weedle" 39)) 49 empty_world
    = (None, caught (creature "weedle" 39) empty_world).
Proof.
  apply (catch_chance_is_antitone (creature "weedle" 39) (creature "pidgey" 50)
           49 empty_world empty_world).
  - reflexivity.
  - vm_compute. discriminate.
  - vm_compute. discriminate.
  - vm_compute. reflexivity.
Defined.

(** *** The pokedex commands *)

Lemma commandInspect_hit (n : string) (w : world) (d : PokemonDetail) :
  userPokedex w !! n = Some d ->
  commandInspect n w =
    (None,
     PrintAll
       (["Name: " +:+ Name d;
         "Height: " +:+ pretty (Height d);
         "Weight: " +:+ pretty (Weight d);
         "Stats:"]
        ++ map (fun stat => "  -" +:+ stat_Name (stat_Stat stat) +:+ ": "
                              +:+ pretty (BaseStat stat)) (Stats d)
        ++ ["Types:"]
        ++ map (fun t => "  - " +:+ res_Name (type_Type t)) (Types d)) w).
Proof. intros Hn. unfold commandInspect. rewrite Hn. reflexivity. Qed.

(** X11 (inspect after catch). After a catch that succeeded, [inspect] of
    the creature's name prints the sheet of the creature just stored: its
    name, height and weight, a line for each stat and a line for each type.
    After a catch that failed on a creature that was not in the pokedex,
    [inspect] answers that it has not been caught. *)
Theorem inspect_reports_the_catch (d : PokemonDetail) (r : Z) (w : world) :
  min_int64 + 100 < BaseExperience d -> BaseExperience d <= max_int64 ->
  (r < 100 - BaseExperience d ->
     exists w2 : world,
       commandInspect (Name d) (commandCatch (Decoded d) r w).2 = (None, w2) /\
       userPokedex w2 = <[Name d := d]> (userPokedex w) /\
       stdout w2 =
         stdout (commandCatch (Decoded d) r w).2 ++
         (["Name: " +:+ Name d;
           "Height: " +:+ pretty (Height d);
           "Weight: " +:+ pretty (Weight d);
           "Stats:"]
          ++ map (fun stat => "  -" +:+ stat_Name (stat_Stat stat) +:+ ": "
                                +:+ pretty (BaseStat stat)) (Stats d)
          ++ ["Types:"]
          ++ map (fun t => "  - " +:+ res_Name (type_Type t)) (Types d))) /\
  (100 - BaseExperience d <= r -> userPokedex w !! Name d = None ->
     commandInspect (Name d) (commandCatch (Decoded d) r w).2 =
       (None, Println "you have not caught that pokemon"
                (commandCatch (Decoded d) r w).2)).
Proof.
  unfold min_int64, max_int64. intros Hlow Hmax. rewrite catch_test.
  unfold int_sub.
  rewrite wrap64_small by (unfold int64_range, min_int64, max_int64; lia).
  split.
  - intros Hroll. rewrite (proj2 (Z.ltb_lt _ _)) by lia.
    cbn [snd]. rewrite (commandInspect_hit _ _ d) by apply lookup_insert_eq.
    eexists. split; [reflexivity|]. split.
    + rewrite PrintAll_userPokedex. reflexivity.
    + rewrite PrintAll_stdout. reflexivity.
  - intros Hroll Hnew. rewrite (proj2 (Z.ltb_ge _ _)) by lia. cbn [snd].
    unfold commandInspect. cbn [userPokedex escaped]. rewrite Hnew.
    reflexivity.
Qed.

Lemma inspect_reports_the_catch_witness :
  exists w2 : world,
    commandInspect "pidgey"
      (commandCatch (Decoded (creature "pidgey" 50)) 49 empty_world).2
      = (None, w2) /\
    userPokedex w2 = {[ "pidgey" := creature "pidgey" 50 ]} /\
    stdout w2 =
      ["Throwing a Pokeball at pidgey..."; "pidgey was caught!";
       "Name: pidgey"; "Height: 4"; "Weight: 60"; "Stats:";
       "  -hp: 35"; "Types:"; "  - electric"].
Proof.
  assert (Hlow : min_int64 + 100 < BaseExperience (creature "pidgey" 50))
    by reflexivity.
  assert (Hmax : BaseExperience (creature "pidgey" 50) <= max_int64)
    by (vm_compute; discriminate).
  assert (Hroll : 49 < 100 - BaseExperience (creature "pidgey" 50))
    by reflexivity.
  destruct (proj1 (inspect_reports_the_catch (creature "pidgey" 50) 49
                     empty_world Hlow Hmax) Hroll) as (w2 & Hrun & Hdex & Hout).
  exists w2. split; [exact Hrun|]. split; [exact Hdex|]. exact Hout.
Defined.

(** X12 (the listing commands only print). [help], [inspect] and [pokedex]
    return no error, leave the pokedex as it is and only add lines, at least
    one, after what was printed before. *)
Theorem listing_commands_only_print (w : world) (pokemonName : string) :
  Forall (fun out : option string * world =>
            out.1 = None /\
            userPokedex out.2 = userPokedex w /\
            exists line lines, stdout out.2 = stdout w ++ line :: lines)
         [commandHelp w; commandInspect pokemonName w; commandPokedex w].
Proof.
  constructor; [|constructor; [|constructor; [|constructor]]].
  - unfold commandHelp. cbn [fst snd].
    rewrite PrintAll_userPokedex, PrintAll_stdout. eauto.
  - unfold commandInspect. destruct (userPokedex w !! pokemonName);
      cbn [fst snd].
    + rewrite PrintAll_userPokedex, PrintAll_stdout. simpl. eauto.
    + simpl. eauto.
  - unfold commandPokedex. destruct (size (userPokedex w) =? 0)%nat;
      cbn [fst snd].
    + simpl. eauto.
    + rewrite PrintAll_userPokedex, PrintAll_stdout. simpl.
      rewrite <- app_assoc. simpl. eauto.
Qed.

(** X13 (the pokedex listing). On an empty pokedex [pokedex] prints "Your
    Pokedex is empty." and nothing else. Otherwise it prints "Your Pokedex:"
    and then one line [" - name"] for each name of the pokedex: every caught
    name is listed, once, and no other. *)
Theorem commandPokedex_lists_each_name_once (w : world) :
  (userPokedex w = ∅ ->
     commandPokedex w = (None, Println "Your Pokedex is empty." w)) /\
  (userPokedex w <> ∅ ->
     exists names : list string,
       NoDup names /\
       (forall n, n ∈ names <-> is_Some (userPokedex w !! n)) /\
       stdout (commandPokedex w).2 =
         stdout w ++ "Your Pokedex:" :: map (fun n => " - " +:+ n) names).
Proof.
  unfold commandPokedex. split.
  - intros ->. reflexivity.
  - intros Hne. apply map_size_non_empty_iff in Hne.
    destruct (Nat.eqb_spec (size (userPokedex w)) 0) as [Hz|_]; [contradiction|].
    exists ((map_to_list (userPokedex w)).*1).
    split; [apply NoDup_fst_map_to_list|]. split.
    + intros n. rewrite list_elem_of_fmap. split.
      * intros ([n' d] & -> & Hin). apply elem_of_map_to_list in Hin. eauto.
      * intros [d Hd]. exists (n, d). split; [reflexivity|].
        apply elem_of_map_to_list. exact Hd.
    + cbn [snd]. rewrite PrintAll_stdout. simpl. rewrite <- app_assoc. simpl.
      f_equal. f_equal. rewrite <- list_fmap_compose. reflexivity.
Qed.

Lemma commandPokedex_lists_each_name_once_witness :
  commandPokedex empty_world = (None, Println "Your Pokedex is empty." empty_world)
  /\
  exists names : list string,
    NoDup names /\
    (forall n, n ∈ names <->
       is_Some (userPokedex (caught (creature "pidgey" 50) empty_world) !! n)) /\
    stdout (commandPokedex (caught (creature "pidgey" 50) empty_world)).2 =
      stdout (caught (creature "pidgey" 50) empty_world)
      ++ "Your Pokedex:" :: map (fun n => " - " +:+ n) names.
Proof.
  split.
  - apply (proj1 (commandPokedex_lists_each_name_once empty_world)).
    reflexivity.
  - apply (proj2 (commandPokedex_lists_each_name_once
                    (caught (creature "pidgey" 50) empty_world))).
    simpl. apply insert_non_empty.
Defined.

(** *** The commands that go through the cache *)

Import pokecache_facts.

(** [commandExplore] when the mutex is free, by what the cache holds and
    what the network answers. *)
Lemma commandExplore_run (E : externals) (loc : string) (now : time.Time)
    (s : state) :
  mu (cache s) = false ->
  commandExplore E loc now s =
    match entries (cache s) !! ("https://pokeapi.co/api/v2/location-area/" +:+ loc) with
    | Some e =>
        Done (printPokemonFromLocation E (val e)
                (Println "Using cached data." (env s))).1
             {| config := config s; cache := cache s;
                env := (printPokemonFromLocation E (val e)
                          (Println "Using cached data." (env s))).2 |}
    | None =>
        match httpGet E ("https://pokeapi.co/api/v2/location-area/" +:+ loc) with
        | HttpError err => Done (Some err) s
        | HttpStatus status => Done (Some ("error fetching data: " +:+ status)) s
        | HttpReadError err => Done (Some err) s
        | HttpBody data =>
            Done (printPokemonFromLocation E (Some data) (env s)).1
                 {| config := config s;
                    cache :=
                      {| mu := false;
                         entries :=
                           <["https://pokeapi.co/api/v2/location-area/" +:+ loc
                             := mkEntry now (Some data)]> (entries (cache s));
                         interval := interval (cache s) |};
                    env := (printPokemonFromLocation E (Some data) (env s)).2 |}
        end
    end.
Proof.
  intros Hmu. unfold commandExplore. cbv zeta.
  rewrite Get_run by exact Hmu.
  destruct (entries (cache s) !! _) as [e|].
  - destruct (printPokemonFromLocation E (val e) _). reflexivity.
  - destruct (httpGet E _); rewrite ?state_eta; try reflexivity.
    rewrite Add_run by exact Hmu.
    destruct (printPokemonFromLocation E (Some data) _). reflexivity.
Qed.

(** The same for the part [map] and [mapb] share. *)
Lemma showPage_run (E : externals) (url : string) (now : time.Time)
    (s : state) :
  mu (cache s) = false ->
  showPage E url now s =
    match entries (cache s) !! url with
    | Some e =>
        match unmarshalConfig E (val e) (config s) with
        | (Some err, cfg) =>
            Done (Some err)
                 {| config := cfg; cache := cache s;
                    env := Println "Using cached data." (env s) |}
        | (None, cfg) =>
            Done None
                 {| config := cfg; cache := cache s;
                    env := PrintAll (map loc_Name (Locations cfg))
                             (Println "Using cached data." (env s)) |}
        end
    | None =>
        match httpGet E url with
        | HttpError err => Done (Some err) s
        | HttpStatus status => Done (Some ("error fetching data: " +:+ status)) s
        | HttpReadError err => Done (Some err) s
        | HttpBody data =>
            match unmarshalConfig E (Some data) (config s) with
            | (Some err, cfg) =>
                Done (Some err)
                     {| config := cfg;
                        cache :=
                          {| mu := false;
                             entries := <[url := mkEntry now (Some data)]>
                                          (entries (cache s));
                             interval := interval (cache s) |};
                        env := env s |}
            | (None, cfg) =>
                Done None
                     {| config := cfg;
                        cache :=
                          {| mu := false;
                             entries := <[url := mkEntry now (Some data)]>
                                          (entries (cache s));
                             interval := interval (cache s) |};
                        env := PrintAll (map loc_Name (Locations cfg)) (env s) |}
            end
        end
    end.
Proof.
  intros Hmu. unfold showPage. rewrite Get_run by exact Hmu.
  destruct (entries (cache s) !! url) as [e|].
  - reflexivity.
  - destruct (httpGet E url); rewrite ?state_eta; try reflexivity.
    rewrite Add_run by exact Hmu. reflexivity.
Qed.

Lemma printPokemonFromLocation_stdout (E : externals) (data : bytes)
    (w : world) :
  exists lines,
    stdout (printPokemonFromLocation E data w).2 = stdout w ++ lines /\
    userPokedex (printPokemonFromLocation E data w).2 = userPokedex w /\
    forall w', stdout (printPokemonFromLocation E data w').2
                 = stdout w' ++ lines.
Proof.
  unfold printPokemonFromLocation.
  destruct (unmarshalEncounters E data) as [err|encounters]; cbn [snd].
  - exists []. rewrite app_nil_r. split; [reflexivity|].
    split; [reflexivity|]. intros w'. rewrite app_nil_r. reflexivity.
  - eexists. rewrite PrintAll_stdout, PrintAll_userPokedex. simpl.
    rewrite <- app_assoc. split; [reflexivity|]. split; [reflexivity|].
    intros w'. rewrite PrintAll_stdout. simpl. rewrite <- app_assoc.
    reflexivity.
Qed.

(** X14 (explore fills the cache and is then served from it). When the
    cache has nothing for the location and the network returns a body,
    [explore] stores the body under the request URL, stamped with the clock,
    before decoding it. A second [explore] of the same location then returns
    the same error value, whatever the network would answer now, leaves
    cache and config alone, and prints "Using cached data." followed by the
    lines the first one printed. This holds as well when the body does not
    decode: the bad body stays cached. *)
Theorem explore_twice (E : externals) (loc : string) (now : time.Time)
    (s : state) (data : list Byte.byte) :
  mu (cache s) = false ->
  entries (cache s) !! ("https://pokeapi.co/api/v2/location-area/" +:+ loc) = None ->
  httpGet E ("https://pokeapi.co/api/v2/location-area/" +:+ loc) = HttpBody data ->
  exists (err : option string) (s1 : state) (lines : list string),
    commandExplore E loc now s = Done err s1 /\
    entries (cache s1) !! ("https://pokeapi.co/api/v2/location-area/" +:+ loc)
      = Some (mkEntry now (Some data)) /\
    stdout (env s1) = stdout (env s) ++ lines /\
    forall (E' : externals) (now' : time.Time),
      unmarshalEncounters E' = unmarshalEncounters E ->
      exists s2 : state,
        commandExplore E' loc now' s1 = Done err s2 /\
        cache s2 = cache s1 /\ config s2 = config s1 /\
        stdout (env s2) = stdout (env s1) ++ "Using cached data." :: lines.
Proof.
  intros Hmu Hmiss Hbody.
  rewrite commandExplore_run by exact Hmu. rewrite Hmiss, Hbody.
  destruct (printPokemonFromLocation_stdout E (Some data) (env s))
    as (lines & Hout & _ & Hany).
  eexists. eexists. exists lines. split; [reflexivity|].
  cbn [cache env entries]. split; [apply lookup_insert_eq|].
  split; [exact Hout|].
  intros E' now' Hdec.
  rewrite commandExplore_run by reflexivity. cbn [cache env entries config].
  rewrite lookup_insert_eq. cbn [val].
  assert (Hsame : forall w, printPokemonFromLocation E' (Some data) w
                            = printPokemonFromLocation E (Some data) w).
  { intros w. unfold printPokemonFromLocation. rewrite Hdec. reflexivity. }
  rewrite !Hsame. eexists. split.
  - f_equal. unfold printPokemonFromLocation.
    destruct (unmarshalEncounters E (Some data)); reflexivity.
  - cbn [cache config env]. split; [reflexivity|]. split; [reflexivity|].
    rewrite Hany. simpl. rewrite <- app_assoc. reflexivity.
Qed.

Lemma explore_twice_witness :
  exists (err : option string) (s1 : state) (lines : list string),
    commandExplore sample_externals "viridian-forest" 1000 initial_state
      = Done err s1 /\
    entries (cache s1) !! viridian_url
      = Some (mkEntry 1000 (Some viridian_body)) /\
    stdout (env s1) = stdout (env initial_state) ++ lines /\
    forall (E' : externals) (now' : time.Time),
      unmarshalEncounters E' = unmarshalEncounters sample_externals ->
      exists s2 : state,
        commandExplore E' "viridian-forest" now' s1 = Done err s2 /\
        cache s2 = cache s1 /\ config s2 = config s1 /\
        stdout (env s2) = stdout (env s1) ++ "Using cached data." :: lines.
Proof.
  apply (explore_twice sample_externals "viridian-forest" 1000 initial_state
           viridian_body); reflexivity.
Defined.



(** X16 (a hit asks nothing of the network or the clock). When the cache
    holds an entry for the URL, [explore], [map] and [mapb] give the same
    result whatever the network would answer and whatever the clock reads,
    and they leave the cache as it is: the entry is neither refreshed nor
    restamped, however old it is. *)
Theorem cache_hit_is_offline (E1 E2 : externals) (loc url : string)
    (now1 now2 : time.Time) (s : state) :
  mu (cache s) = false ->
  unmarshalEncounters E1 = unmarshalEncounters E2 ->
  unmarshalConfig E1 = unmarshalConfig E2 ->
  (is_Some (entries (cache s) !! ("https://pokeapi.co/api/v2/location-area/" +:+ loc)) ->
   exists err s',
     commandExplore E1 loc now1 s = Done err s' /\
     commandExplore E2 loc now2 s = Done err s' /\
     cache s' = cache s) /\
  (is_Some (entries (cache s) !! url) ->
   exists err s',
     showPage E1 url now1 s = Done err s' /\
     showPage E2 url now2 s = Done err s' /\
     cache s' = cache s).
Proof.
  intros Hmu Henc Hcfg. split; intros [e He].
  - rewrite !commandExplore_run by exact Hmu. rewrite He.
    unfold printPokemonFromLocation. rewrite Henc. eauto.
  - rewrite !showPage_run by exact Hmu. rewrite He, Hcfg.
    destruct (unmarshalConfig E2 (val e) (config s)) as [[err|] cfg]; eauto.
Qed.

Lemma cache_hit_is_offline_witness :
  exists err s',
    commandExplore sample_externals "viridian-forest" 2000
      {| config := config initial_state;
         cache := {| mu := false;
                     entries := {[ viridian_url :=
                                     mkEntry 1000 (Some viridian_body) ]};
                     interval := 300000000000 |};
         env := empty_world |} = Done err s' /\
    commandExplore offline "viridian-forest" 900000000000000
      {| config := config initial_state;
         cache := {| mu := false;
                     entries := {[ viridian_url :=
                                     mkEntry 1000 (Some viridian_body) ]};
                     interval := 300000000000 |};
         env := empty_world |} = Done err s' /\
    cache s' = {| mu := false;
                  entries := {[ viridian_url :=
                                  mkEntry 1000 (Some viridian_body) ]};
                  interval := 300000000000 |}.
Proof.
  apply (proj1 (cache_hit_is_offline sample_externals offline
                  "viridian-forest" "" 2000 900000000000000
                  {| config := config initial_state;
                     cache := {| mu := false;
                                 entries := {[ viridian_url :=
                                   mkEntry 1000 (Some viridian_body) ]};
                                 interval := 300000000000 |};
                     env := empty_world |} eq_refl eq_refl eq_refl)).
  eexists. reflexivity.
Defined.



(** X24 (after the sweep, back to the network). A location explored at the
    clock reading [t0] and swept at a reading [now] with [now - t0] above the
    retention interval is no longer served from the cache: the next
    [explore] of it depends on the network again, and with the network down
    it returns an error and changes nothing. *)
Theorem explore_after_sweep (E : externals) (loc : string)
    (t0 now : time.Time) (s : state) (data : list Byte.byte) :
  mu (cache s) = false ->
  entries (cache s) !! ("https://pokeapi.co/api/v2/location-area/" +:+ loc) = None ->
  httpGet E ("https://pokeapi.co/api/v2/location-area/" +:+ loc) = HttpBody data ->
  time.reading t0 -> time.reading now ->
  now - t0 > interval (cache s) ->
  exists (err : option string) (s1 : state) (c2 : Cache),
    commandExplore E loc t0 s = Done err s1 /\
    reapPass now (cache s1) = Returned tt c2 /\
    entries c2 !! ("https://pokeapi.co/api/v2/location-area/" +:+ loc) = None /\
    forall (E' : externals) (now' : time.Time),
      (forall data', httpGet E' ("https://pokeapi.co/api/v2/location-area/" +:+ loc)
                       <> HttpBody data') ->
      exists err',
        commandExplore E' loc now'
          {| config := config s1; cache := c2; env := env s1 |}
        = Done (Some err')
            {| config := config s1; cache := c2; env := env s1 |}.
Proof.
  intros Hmu Hmiss Hbody Ht0 Hnow Hage.
  rewrite commandExplore_run by exact Hmu. rewrite Hmiss, Hbody.
  eexists. eexists. cbn [cache].
  destruct (reapPass_run
    {| mu := false;
       entries := <["https://pokeapi.co/api/v2/location-area/" +:+ loc
                    := mkEntry t0 (Some data)]> (entries (cache s));
       interval := interval (cache s) |} now eq_refl)
    as (c2 & Hrun & Hmu2 & _ & Hlook).
  exists c2. split; [reflexivity|]. split; [exact Hrun|].
  assert (Hgone : entries c2 !! ("https://pokeapi.co/api/v2/location-area/" +:+ loc)
                  = None).
  { rewrite Hlook. cbn [entries interval]. rewrite lookup_insert_eq.
    unfold expired. cbn [createdAt].
    rewrite Since_readings by assumption.
    rewrite bool_decide_eq_true_2 by lia. reflexivity. }
  split; [exact Hgone|]. intros E' now' Hdown.
  rewrite commandExplore_run by exact Hmu2. cbn [cache]. rewrite Hgone.
  destruct (httpGet E' _) as [e|status|data'|e]; eauto.
  destruct (Hdown data' eq_refl).
Qed.

Lemma explore_after_sweep_witness :
  exists (err : option string) (s1 : state) (c2 : Cache),
    commandExplore sample_externals "viridian-forest" 1000 initial_state
      = Done err s1 /\
    reapPass 300000001001 (cache s1) = Returned tt c2 /\
    entries c2 !! viridian_url = None /\
    forall (E' : externals) (now' : time.Time),
      (forall data', httpGet E' viridian_url <> HttpBody data') ->
      exists err',
        commandExplore E' "viridian-forest" now'
          {| config := config s1; cache := c2; env := env s1 |}
        = Done (Some err')
            {| config := config s1; cache := c2; env := env s1 |}.
Proof.
  apply (explore_after_sweep sample_externals "viridian-forest" 1000
           300000001001 initial_state viridian_body);
    try reflexivity; vm_compute; split; discriminate.
Defined.

(** *** The table of commands and the dispatch *)

Ltac find_command :=
  unfold commands, list_to_map; cbn [foldr fst snd];
  repeat (rewrite lookup_insert_ne by discriminate);
  rewrite lookup_insert_eq.

Ltac lookup_command := find_command; cbn [callback].

Lemma commands_unknown (E : externals) (n : string) :
  n ∉ ["help"; "exit"; "map"; "mapb"; "explore"; "catch"; "inspect"; "pokedex"] ->
  commands E !! n = None.
Proof.
  intros Hn. unfold commands. apply not_elem_of_list_to_map_1. exact Hn.
Qed.

Lemma dispatch_unknown_eq (E : externals) (commandName : string)
    (now : time.Time) (r : Z) (s : state) :
  commandName ∉ ["help"; "exit"; "map"; "mapb"; "explore"; "catch";
                 "inspect"; "pokedex"] ->
  dispatch E [] now r s
    = Done None (say "Unknown command. Type 'help' for a list of commands." s) /\
  forall args,
    dispatch E (commandName :: args) now r s
      = Done None (say "Unknown command. Type 'help' for a list of commands." s).
Proof.
  intros Hn. split; [reflexivity|]. intros args. unfold dispatch.
  rewrite commands_unknown by exact Hn. reflexivity.
Qed.

(** X18 (what is not a command). An empty line and a first word that is
    none of the eight command names get the same answer, "Unknown command.
    Type 'help' for a list of commands.", and nothing else happens: config,
    cache and pokedex stay as they are. The names are matched exactly. *)
Theorem dispatch_unknown (E : externals) (commandName : string)
    (args : list string) (now : time.Time) (r : Z) (s : state) :
  dispatch E [] now r s
    = Done None (say "Unknown command. Type 'help' for a list of commands." s) /\
  (commandName ∉ ["help"; "exit"; "map"; "mapb"; "explore"; "catch";
                  "inspect"; "pokedex"] ->
   dispatch E (commandName :: args) now r s
     = Done None (say "Unknown command. Type 'help' for a list of commands." s)).
Proof.
  split; [reflexivity|]. intros Hn. unfold dispatch.
  rewrite commands_unknown by exact Hn. reflexivity.
Qed.

Lemma dispatch_unknown_witness :
  dispatch offline ["Help"; "me"] 1000 0 initial_state
    = Done None (say "Unknown command. Type 'help' for a list of commands."
                   initial_state).
Proof.
  apply (proj2 (dispatch_unknown offline "Help" ["me"] 1000 0 initial_state)).
  intros Hin. repeat (apply elem_of_cons in Hin as [Hin|Hin]; [discriminate|]).
  inversion Hin.
Defined.

(** X19 (a missing argument). [explore], [catch] and [inspect] typed with
    no argument print their own "Error: please provide ..." line and do
    nothing else: no request is made, the cache is not consulted (the answer
    comes even while the mutex is held), config and pokedex are unchanged. *)
Theorem dispatch_missing_argument (E : externals) (now : time.Time) (r : Z)
    (s : state) :
  dispatch E ["explore"] now r s
    = Done None (say "Error: please provide a location area name to explore" s) /\
  dispatch E ["catch"] now r s
    = Done None (say "Error: please provide a Pokémon name to catch" s) /\
  dispatch E ["inspect"] now r s
    = Done None (say "Error: please provide a Pokémon name to inspect" s).
Proof.
  unfold dispatch. repeat split; lookup_command; reflexivity.
Qed.

(** X20 (beyond the arguments a command takes). [explore], [catch] and
    [inspect] use the first word after the command name and ignore the
    rest; [help], [exit], [map], [mapb] and [pokedex] ignore every word
    after the command name. *)
Theorem dispatch_ignores_extra_words (E : externals) (commandName arg : string)
    (rest : list string) (now : time.Time) (r : Z) (s : state) :
  dispatch E (commandName :: arg :: rest) now r s
    = dispatch E [commandName; arg] now r s /\
  (commandName ∈ ["help"; "exit"; "map"; "mapb"; "pokedex"] ->
   dispatch E (commandName :: arg :: rest) now r s
     = dispatch E [commandName] now r s).
Proof.
  destruct (decide (commandName ∈ ["help"; "exit"; "map"; "mapb"; "explore";
                                   "catch"; "inspect"; "pokedex"]))
    as [Hin|Hout].
  - split.
    + repeat (apply elem_of_cons in Hin as [->|Hin]);
        [..|inversion Hin]; unfold dispatch; lookup_command; reflexivity.
    + clear Hin. intros Hin.
      repeat (apply elem_of_cons in Hin as [->|Hin]);
        [..|inversion Hin]; unfold dispatch; lookup_command; reflexivity.
  - split.
    + rewrite !(proj2 (dispatch_unknown_eq E commandName now r s Hout)).
      reflexivity.
    + intros Hin. destruct Hout.
      repeat (apply elem_of_cons in Hin as [->|Hin]); [..|inversion Hin];
        rewrite !elem_of_cons; auto 10.
Qed.

Lemma dispatch_ignores_extra_words_witness :
  dispatch sample_externals ["explore"; "viridian-forest"; "now"; "please"]
    1000 0 initial_state
    = dispatch sample_externals ["explore"; "viridian-forest"] 1000 0
        initial_state /\
  dispatch sample_externals ["pokedex"; "all"; "of"; "it"] 1000 0 initial_state
    = dispatch sample_externals ["pokedex"] 1000 0 initial_state.
Proof.
  split.
  - apply (proj1 (dispatch_ignores_extra_words sample_externals "explore"
                    "viridian-forest" ["now"; "please"] 1000 0 initial_state)).
  - apply (proj2 (dispatch_ignores_extra_words sample_externals "pokedex"
                    "all" ["of"; "it"] 1000 0 initial_state)).
    rewrite !elem_of_cons. auto 10.
Defined.

(** X21 (the ends of the pages). [mapb] with no previous page prints
    "Error: no previous locations available"; [map] with locations loaded
    and no next page prints "Error: no more location areas to display". In
    both cases nothing else happens: no request, no cache access, same
    config. *)
Theorem dispatch_page_bounds (E : externals) (args : list string)
    (now : time.Time) (r : Z) (s : state) :
  (Previous (config s) = None ->
   dispatch E ("mapb" :: args) now r s
     = Done None (say "Error: no previous locations available" s)) /\
  (Locations (config s) <> [] -> Next (config s) = None ->
   dispatch E ("map" :: args) now r s
     = Done None (say "Error: no more location areas to display" s)).
Proof.
  unfold dispatch. split.
  - intros Hprev. lookup_command. unfold commandMapBack. rewrite Hprev.
    reflexivity.
  - intros Hloc Hnext. lookup_command. unfold commandMap. rewrite Hnext.
    destruct (Locations (config s)); [contradiction|]. reflexivity.
Qed.

Lemma dispatch_page_bounds_witness :
  dispatch sample_externals ["mapb"] 1000 0 initial_state
    = Done None (say "Error: no previous locations available" initial_state)
  /\
  dispatch sample_externals ["map"] 1000 0
    {| config := {| Next := None; Previous := Some viridian_url;
                    Locations := [mkLocation "viridian-forest" viridian_url] |};
       cache := NewCache 100; env := empty_world |}
    = Done None
        (say "Error: no more location areas to display"
           {| config := {| Next := None; Previous := Some viridian_url;
                           Locations :=
                             [mkLocation "viridian-forest" viridian_url] |};
              cache := NewCache 100; env := empty_world |}).
Proof.
  split.
  - apply (proj1 (dispatch_page_bounds sample_externals [] 1000 0
                    initial_state)). reflexivity.
  - apply (proj2 (dispatch_page_bounds sample_externals [] 1000 0
             {| config := {| Next := None; Previous := Some viridian_url;
                             Locations :=
                               [mkLocation "viridian-forest" viridian_url] |};
                cache := NewCache 100; env := empty_world |}));
      [discriminate|reflexivity].
Defined.

(** What the commands behind the cache leave of pokedex and config,
    whatever the mutex. *)
Lemma showPage_frame (E : externals) (url : string) (now : time.Time)
    (s : state) :
  match showPage E url now s with
  | Done _ s' | Exit s' => userPokedex (env s') = userPokedex (env s)
  | Hang | Crash => True
  end.
Proof.
  unfold showPage.
  destruct (Get url now (cache s)) as [[cachedData found] c1| |]; [|exact I..].
  destruct found.
  - destruct (unmarshalConfig E cachedData (config s)) as [[err|] cfg];
      cbn [env]; [reflexivity|]. rewrite PrintAll_userPokedex. reflexivity.
  - destruct (httpGet E url) as [err|status|data|err]; try reflexivity.
    destruct (Add url (Some data) now c1) as [[] c2| |]; [|exact I..].
    destruct (unmarshalConfig E (Some data) (config s)) as [[err|] cfg];
      cbn [env]; [reflexivity|]. apply PrintAll_userPokedex.
Qed.

Lemma commandExplore_frame (E : externals) (loc : string) (now : time.Time)
    (s : state) :
  match commandExplore E loc now s with
  | Done _ s' | Exit s' =>
      userPokedex (env s') = userPokedex (env s) /\ config s' = config s
  | Hang | Crash => True
  end.
Proof.
  unfold commandExplore. cbv zeta.
  destruct (Get _ now (cache s)) as [[cachedData found] c1| |]; [|exact I..].
  destruct found.
  - destruct (printPokemonFromLocation_stdout E cachedData
                (Println "Using cached data." (env s))) as (_ & _ & Hdex & _).
    destruct (printPokemonFromLocation E cachedData _) as [err w].
    cbn [env config]. split; [exact Hdex|reflexivity].
  - destruct (httpGet E _) as [err|status|data|err]; try (split; reflexivity).
    destruct (Add _ (Some data) now c1) as [[] c2| |]; [|exact I..].
    destruct (printPokemonFromLocation_stdout E (Some data) (env s))
      as (_ & _ & Hdex & _).
    destruct (printPokemonFromLocation E (Some data) (env s)) as [err w].
    cbn [env config]. split; [exact Hdex|reflexivity].
Qed.

Lemma on_env_run (f : world -> option string * world) (s : state) :
  on_env f s = Done (f (env s)).1
                 {| config := config s; cache := cache s; env := (f (env s)).2 |}.
Proof. unfold on_env. destruct (f (env s)). reflexivity. Qed.

Lemma commandInspect_userPokedex (n : string) (w : world) :
  userPokedex (commandInspect n w).2 = userPokedex w.
Proof.
  unfold commandInspect. destruct (userPokedex w !! n); cbn [snd];
    [apply PrintAll_userPokedex|reflexivity].
Qed.

Lemma commandPokedex_userPokedex (w : world) :
  userPokedex (commandPokedex w).2 = userPokedex w.
Proof.
  unfold commandPokedex. destruct (size (userPokedex w) =? 0)%nat; cbn [snd];
    [reflexivity|rewrite PrintAll_userPokedex; reflexivity].
Qed.

(** A property of the state that printing keeps holds after a turn of the
    loop if it holds after the callback the turn runs. *)
Lemma dispatch_cases (E : externals) (commandName : string)
    (args : list string) (now : time.Time) (r : Z) (s : state)
    (P : state -> Prop) :
  (forall line s', P s' -> P (say line s')) ->
  P s ->
  (forall cmd, commands E !! commandName = Some cmd ->
     match callback cmd args now r s with
     | Done _ s' | Exit s' => P s'
     | Hang | Crash => True
     end) ->
  match dispatch E (commandName :: args) now r s with
  | Done _ s' | Exit s' => P s'
  | Hang | Crash => True
  end.
Proof.
  intros Hsay Hs Hcmd. unfold dispatch.
  destruct (commands E !! commandName) as [cmd|].
  - specialize (Hcmd cmd eq_refl).
    destruct (callback cmd args now r s) as [[err|] s'|s'| |]; auto.
  - auto.
Qed.

(** X22 (what a command can write). Whatever is typed, if the turn of the
    loop ends: the pokedex is as before unless the command is [catch]; the
    config is as before unless the command is [map] or [mapb]; and the cache
    is as before unless the command is [map], [mapb] or [explore]. *)
Theorem dispatch_writes (E : externals) (inputParts : list string)
    (now : time.Time) (r : Z) (s : state) :
  match dispatch E inputParts now r s with
  | Done _ s' | Exit s' =>
      (head inputParts <> Some "catch" ->
         userPokedex (env s') = userPokedex (env s)) /\
      (head inputParts <> Some "map" -> head inputParts <> Some "mapb" ->
         config s' = config s) /\
      (head inputParts <> Some "map" -> head inputParts <> Some "mapb" ->
       head inputParts <> Some "explore" ->
         cache s' = cache s)
  | Hang | Crash => True
  end.
Proof.
  destruct inputParts as [|commandName args]; [simpl; auto|].
  cbn [head].
  apply (dispatch_cases E commandName args now r s
           (fun s' =>
              (Some commandName <> Some "catch" ->
                 userPokedex (env s') = userPokedex (env s)) /\
              (Some commandName <> Some "map" ->
               Some commandName <> Some "mapb" -> config s' = config s) /\
              (Some commandName <> Some "map" ->
               Some commandName <> Some "mapb" ->
               Some commandName <> Some "explore" -> cache s' = cache s)));
    [intros line s' H; exact H|auto|].
  intros cmd Hcmd.
  destruct (decide (commandName ∈ ["help"; "exit"; "map"; "mapb"; "explore";
                                   "catch"; "inspect"; "pokedex"]))
    as [Hin|Hout].
  2: { rewrite commands_unknown in Hcmd by exact Hout. discriminate. }
  repeat (apply elem_of_cons in Hin as [->|Hin]); [..|inversion Hin];
    revert Hcmd; find_command; intros [= <-]; cbn [callback].
  - rewrite on_env_run. cbn [config cache env]. unfold commandHelp.
    cbn [snd]. rewrite PrintAll_userPokedex. auto.
  - unfold commandExit. cbn [config cache env]. auto.
  - pose proof (showPage_frame E) as Hframe. unfold commandMap.
    assert (Hwrap : forall res : result,
      match res with
      | Done _ s' | Exit s' => userPokedex (env s') = userPokedex (env s)
      | _ => True end ->
      match res with
      | Done _ s' | Exit s' =>
          (Some "map" <> Some "catch" ->
             userPokedex (env s') = userPokedex (env s)) /\
          (Some "map" <> Some "map" -> Some "map" <> Some "mapb" ->
             config s' = config s) /\
          (Some "map" <> Some "map" -> Some "map" <> Some "mapb" ->
           Some "map" <> Some "explore" -> cache s' = cache s)
      | _ => True end).
    { intros [e s'|s'| |] H; auto; (split; [auto|split; intros; congruence]). }
    destruct (length (Locations (config s)) =? 0)%nat;
      [apply Hwrap, Hframe|].
    destruct (Next (config s)); [apply Hwrap, Hframe|].
    split; [auto|split; intros; congruence].
  - pose proof (showPage_frame E) as Hframe. unfold commandMapBack.
    destruct (Previous (config s)) as [previous|].
    + specialize (Hframe previous now s).
      destruct (showPage E previous now s) as [e s'|s'| |]; auto;
        (split; [auto|split; intros; congruence]).
    + split; [auto|split; intros; congruence].
  - destruct args as [|locationName args]; [auto|].
    pose proof (commandExplore_frame E locationName now s) as Hframe.
    destruct (commandExplore E locationName now s) as [err s'|s'| |]; auto;
      destruct Hframe as [Hdex Hcfg];
      (split; [auto|split; [auto|intros; congruence]]).
  - destruct args as [|pokemonName args]; [split; [congruence|auto]|].
    rewrite on_env_run. cbn [config cache env].
    split; [congruence|auto].
  - destruct args as [|pokemonName args]; [auto|].
    rewrite on_env_run. cbn [config cache env].
    rewrite commandInspect_userPokedex. auto.
  - rewrite on_env_run. cbn [config cache env].
    rewrite commandPokedex_userPokedex. auto.
Qed.

Lemma showPage_answers (E : externals) (url : string) (now : time.Time)
    (s : state) :
  mu (cache s) = false ->
  exists err s', showPage E url now s = Done err s' /\ mu (cache s') = false.
Proof.
  intros Hmu. rewrite showPage_run by exact Hmu.
  destruct (entries (cache s) !! url) as [e|].
  - destruct (unmarshalConfig E (val e) (config s)) as [[err|] cfg]; eauto.
  - destruct (httpGet E url) as [err|status|data|err]; eauto.
    destruct (unmarshalConfig E (Some data) (config s)) as [[err|] cfg]; eauto.
Qed.

Lemma commandExplore_answers (E : externals) (loc : string)
    (now : time.Time) (s : state) :
  mu (cache s) = false ->
  exists err s',
    commandExplore E loc now s = Done err s' /\ mu (cache s') = false.
Proof.
  intros Hmu. rewrite commandExplore_run by exact Hmu.
  destruct (entries (cache s) !! _) as [e|]; [eauto|].
  destruct (httpGet E _) as [err|status|data|err]; eauto.
Qed.

Lemma dispatch_done (E : externals) (commandName : string)
    (args : list string) (now : time.Time) (r : Z) (s : state)
    (cmd : cliCommand) :
  commands E !! commandName = Some cmd ->
  (exists err s',
     callback cmd args now r s = Done err s' /\ mu (cache s') = false) ->
  exists s'',
    dispatch E (commandName :: args) now r s = Done None s'' /\
    mu (cache s'') = false.
Proof.
  intros Hcmd (err & s' & Hrun & Hmu). unfold dispatch. rewrite Hcmd, Hrun.
  destruct err as [err|]; eauto.
Qed.

(** X23 (every line gets its answer). With the cache mutex free, a turn of
    the loop never hangs and never stops the program, whatever was typed and
    whatever the network and the decoders do: it ends with no error left
    over (an error of a command has been printed) and with the mutex free
    again. The one exception is [exit], which prints "Exiting the
    Pokedex..." and ends the process. *)
Theorem dispatch_always_answers (E : externals) (inputParts : list string)
    (now : time.Time) (r : Z) (s : state) :
  mu (cache s) = false ->
  (exists s', dispatch E inputParts now r s = Done None s' /\
              mu (cache s') = false) \/
  (head inputParts = Some "exit" /\
   dispatch E inputParts now r s = Exit (say "Exiting the Pokedex..." s)).
Proof.
  intros Hmu. destruct inputParts as [|commandName args];
    [left; simpl; eauto|].
  destruct (decide (commandName ∈ ["help"; "exit"; "map"; "mapb"; "explore";
                                   "catch"; "inspect"; "pokedex"]))
    as [Hin|Hout].
  2: { left. rewrite (proj2 (dispatch_unknown_eq E commandName now r s Hout)).
       eauto. }
  repeat (apply elem_of_cons in Hin as [->|Hin]); [..|inversion Hin].
  2: { right. split; [reflexivity|]. unfold dispatch. lookup_command.
       reflexivity. }
  all: left; eapply dispatch_done; [find_command; reflexivity|];
    cbn [callback].
  - rewrite on_env_run. eauto.
  - unfold commandMap.
    destruct (length (Locations (config s)) =? 0)%nat;
      [apply showPage_answers; exact Hmu|].
    destruct (Next (config s)); [apply showPage_answers; exact Hmu|eauto].
  - unfold commandMapBack.
    destruct (Previous (config s)); [apply showPage_answers; exact Hmu|eauto].
  - destruct args as [|locationName args]; [eauto|].
    apply commandExplore_answers. exact Hmu.
  - destruct args as [|pokemonName args]; [eauto|].
    rewrite on_env_run. eauto.
  - destruct args as [|pokemonName args]; [eauto|].
    rewrite on_env_run. eauto.
  - rewrite on_env_run. eauto.
Qed.

Lemma dispatch_always_answers_witness :
  mu (cache initial_state) = false /\
  ((exists s', dispatch offline ["catch"; "pidgey"] 1000 7 initial_state
                 = Done None s' /\ mu (cache s') = false) \/
   (head ["catch"; "pidgey"] = Some "exit" /\
    dispatch offline ["catch"; "pidgey"] 1000 7 initial_state
      = Exit (say "Exiting the Pokedex..." initial_state))).
Proof.
  split; [reflexivity|].
  apply (dispatch_always_answers offline ["catch"; "pidgey"] 1000 7
           initial_state).
  reflexivity.
Defined.

End commands_facts.
